(** * A verified model of the inverted-index search engine

    Shallow embedding of [search_engine.py]: the tokenizer, the term
    dictionary ([Trie]), the index builder ([process_page], [build_index]),
    the conjunctive query engine ([search]) and the ranking engine
    ([rank_results]).

    Conventions of the embedding.
    - A Python [str] is a [string]; its characters are the code points
      below 256, for which [lower_char] and [isspace] follow Python's
      [str.lower] and [str.isspace].
    - A [dict] whose iteration order is never observed is a [gmap]; the
      [scores] dictionary of [rank_results], whose insertion order decides
      ties, is an association list.
    - Python integers are [Z]; the trie's [-1] sentinel is kept as it is.
    - An operation that raises ([IndexError] on a list subscript,
      [KeyError] on a dictionary subscript) returns [None]. *)

From Stdlib Require Import ZArith Ascii String List DecimalString.
From stdpp Require Import gmap strings list fin_maps sorting.

Local Open Scope Z_scope.

(** ** Strings *)

Module Str.

(** [str.lower] on one character: [A-Z] and the Latin-1 capitals
    (U+00C0 to U+00DE, the multiplication sign U+00D7 apart) move up by
    32; every other character below 256 is its own lower case. *)
Definition lower_char (c : ascii) : ascii :=
  let n := N_of_ascii c in
  if ((65 <=? n)%N && (n <=? 90)%N) ||
     ((192 <=? n)%N && (n <=? 222)%N && negb (n =? 215)%N)
  then ascii_of_N (n + 32) else c.

Fixpoint lower (s : string) : string :=
  match s with
  | EmptyString => EmptyString
  | String c s' => String (lower_char c) (lower s')
  end.

(** [string.punctuation]; the double quote is spelled by its code. *)
Definition punctuation : string :=
  String "!" (String (ascii_of_nat 34) "#$%&'()*+,-./:;<=>?@[\]^_`{|}~").

Fixpoint mem_char (c : ascii) (s : string) : bool :=
  match s with
  | EmptyString => false
  | String d s' => Ascii.eqb c d || mem_char c s'
  end.

(** [text.translate(str.maketrans('', '', chars))]: delete every
    character of [chars]. *)
Fixpoint translate_delete (chars : string) (s : string) : string :=
  match s with
  | EmptyString => EmptyString
  | String c s' =>
      if mem_char c chars then translate_delete chars s'
      else String c (translate_delete chars s')
  end.

(** [str.isspace] on one character below 256: tab to carriage return,
    the four separators U+001C to U+001F, space, U+0085 and U+00A0. *)
Definition isspace (c : ascii) : bool :=
  let n := N_of_ascii c in
  ((9 <=? n)%N && (n <=? 13)%N) || ((28 <=? n)%N && (n <=? 32)%N) ||
  (n =? 133)%N || (n =? 160)%N.

(** [str.split()] without arguments: the maximal runs of characters
    that are not white space; [cur] is the run being read. *)
Fixpoint split_from (cur : string) (s : string) : list string :=
  match s with
  | EmptyString => if String.eqb cur "" then [] else [cur]
  | String c s' =>
      if isspace c
      then (if String.eqb cur "" then split_from "" s'
            else cur :: split_from "" s')
      else split_from (cur +:+ String c "") s'
  end.

Definition split (s : string) : list string := split_from "" s.

(** [sep.join(words)]. *)
Definition join (sep : string) (words : list string) : string :=
  String.concat sep words.

(** [t in s] on strings: [t] occurs as a contiguous substring of [s]. *)
Fixpoint contains (s t : string) : bool :=
  String.prefix t s ||
  match s with
  | EmptyString => false
  | String _ s' => contains s' t
  end.

(** [str.strip()]: drop white space at both ends. *)
Fixpoint lstrip (s : string) : string :=
  match s with
  | EmptyString => EmptyString
  | String c s' => if isspace c then lstrip s' else s
  end.

Fixpoint rstrip (s : string) : string :=
  match s with
  | EmptyString => EmptyString
  | String c s' =>
      let r := rstrip s' in
      if isspace c && String.eqb r "" then "" else String c r
  end.

Definition strip (s : string) : string := rstrip (lstrip s).

(** [s.split('/')[-1]]: what follows the last slash, or all of [s]. *)
Fixpoint last_segment_from (cur : string) (s : string) : string :=
  match s with
  | EmptyString => cur
  | String c s' =>
      if Ascii.eqb c "/" then last_segment_from "" s'
      else last_segment_from (cur +:+ String c "") s'
  end.

Definition last_segment (s : string) : string := last_segment_from "" s.

End Str.

(** ** Term dictionary *)

#[warnings="-register-all"]
Inductive TrieNode : Type :=
  mkTrieNode {
    children : gmap ascii TrieNode;
    is_end_of_word : bool;
    occurrence_list_index : Z
  }.

(** [TrieNode()] *)
Definition TrieNode_new : TrieNode := mkTrieNode ∅ false (-1).

Module Trie.

Record t : Type := mk { root : TrieNode }.

(** [Trie()] *)
Definition new : t := mk TrieNode_new.

(** The walk of [insert] below [node]: the child for each character is
    created when it is missing, and the node reached after the last
    character is marked. *)
Fixpoint insert_node (node : TrieNode) (word : string) (idx : Z) : TrieNode :=
  match word with
  | EmptyString => mkTrieNode (children node) true idx
  | String char word' =>
      let child := default TrieNode_new (children node !! char) in
      mkTrieNode (<[char := insert_node child word' idx]> (children node))
                 (is_end_of_word node) (occurrence_list_index node)
  end.

Definition insert (self : t) (word : string) (occurrence_list_index : Z) : t :=
  mk (insert_node (root self) word occurrence_list_index).

Fixpoint search_node (node : TrieNode) (word : string) : Z :=
  match word with
  | EmptyString =>
      if is_end_of_word node then occurrence_list_index node else -1
  | String char word' =>
      match children node !! char with
      | None => -1
      | Some child => search_node child word'
      end
  end.

Definition search (self : t) (word : string) : Z :=
  search_node (root self) word.

End Trie.

(** ** Python containers *)

(** [l[i]] on a list: a negative index counts from the end, an index out
    of range raises [IndexError]. *)
Definition py_index {A} (l : list A) (i : Z) : option A :=
  if 0 <=? i then l !! Z.to_nat i
  else if - Z.of_nat (length l) <=? i then l !! Z.to_nat (Z.of_nat (length l) + i)
  else None.

(** [collections.Counter(words)] *)
Definition Counter (words : list string) : gmap string Z :=
  fold_left (fun m w => <[w := default 0 (m !! w) + 1]> m) words ∅.

(** [enumerate(l)], counting from [i]. *)
Fixpoint enumerate_from {A} (i : Z) (l : list A) : list (Z * A) :=
  match l with
  | [] => []
  | x :: l' => (i, x) :: enumerate_from (i + 1) l'
  end.

Definition enumerate {A} (l : list A) : list (Z * A) := enumerate_from 0 l.

(** [sorted(l)]: a stable sort that compares with [<] only. [lt a b] says
    that [a] goes strictly before [b]; for [reverse=True] it is the
    converse of [<] on the keys, which keeps the sort stable as Python's
    does. *)
Section Sorted.
Context {A : Type} (lt : A -> A -> bool).

Fixpoint insert_sorted (x : A) (l : list A) : list A :=
  match l with
  | [] => [x]
  | y :: l' => if lt y x then y :: insert_sorted x l' else x :: l
  end.

Definition sorted (l : list A) : list A := foldr insert_sorted [] l.
End Sorted.

(** [d[k] = v] on a dictionary whose order is observed: a key already
    there keeps its place, a new key goes last. *)
Fixpoint dict_set {V} (d : list (string * V)) (k : string) (v : V) : list (string * V) :=
  match d with
  | [] => [(k, v)]
  | (k', v') :: d' =>
      if String.eqb k k' then (k, v) :: d' else (k', v') :: dict_set d' k v
  end.

(** ** The engine *)

(** What [process_page] reads off [BeautifulSoup(content, 'html.parser')]:
    the text of the [title] tag when there is one, and [get_text()]. *)
Record Soup : Type := mkSoup {
  find_title : option string;
  get_text : string
}.

Record Stats : Type := mkStats {
  total_pages : Z;
  total_words : Z;
  unique_words : Z
}.

Record SearchEngine : Type := mkSearchEngine {
  pages : gmap string Soup;
  page_titles : gmap string string;
  inverted_index : gmap string (list string);
  trie : Trie.t;
  occurrence_lists : list (list string);
  word_frequencies : gmap string (gmap string Z);
  stop_words : gset string;
  stats : Stats
}.

Definition load_stop_words : gset string :=
  list_to_set [
    "a"; "an"; "the"; "and"; "or"; "but"; "is"; "are"; "was"; "were";
    "in"; "on"; "at"; "to"; "for"; "with"; "by"; "about"; "against";
    "between"; "into"; "through"; "during"; "before"; "after"; "above";
    "below"; "from"; "up"; "down"; "of"; "off"; "over"; "under"; "again";
    "further"; "then"; "once"; "here"; "there"; "when"; "where"; "why";
    "how"; "all"; "any"; "both"; "each"; "few"; "more"; "most"; "other";
    "some"; "such"; "no"; "nor"; "not"; "only"; "own"; "same"; "so";
    "than"; "too"; "very"; "s"; "t"; "can"; "will"; "just"; "don";
    "should"; "now"; "he"; "she"; "it"; "they"; "we"; "you"; "i"; "me"; "my"
  ].

(** [SearchEngine()] *)
Definition SearchEngine_new : SearchEngine :=
  mkSearchEngine ∅ ∅ ∅ Trie.new [] ∅ load_stop_words (mkStats 0 0 0).

(** Field updates. *)
Definition set_pages (f : gmap string Soup -> gmap string Soup) (e : SearchEngine) :=
  mkSearchEngine (f (pages e)) (page_titles e) (inverted_index e) (trie e)
    (occurrence_lists e) (word_frequencies e) (stop_words e) (stats e).
Definition set_page_titles (f : gmap string string -> gmap string string) (e : SearchEngine) :=
  mkSearchEngine (pages e) (f (page_titles e)) (inverted_index e) (trie e)
    (occurrence_lists e) (word_frequencies e) (stop_words e) (stats e).
Definition set_inverted_index
    (f : gmap string (list string) -> gmap string (list string)) (e : SearchEngine) :=
  mkSearchEngine (pages e) (page_titles e) (f (inverted_index e)) (trie e)
    (occurrence_lists e) (word_frequencies e) (stop_words e) (stats e).
Definition set_trie (f : Trie.t -> Trie.t) (e : SearchEngine) :=
  mkSearchEngine (pages e) (page_titles e) (inverted_index e) (f (trie e))
    (occurrence_lists e) (word_frequencies e) (stop_words e) (stats e).
Definition set_occurrence_lists
    (f : list (list string) -> list (list string)) (e : SearchEngine) :=
  mkSearchEngine (pages e) (page_titles e) (inverted_index e) (trie e)
    (f (occurrence_lists e)) (word_frequencies e) (stop_words e) (stats e).
Definition set_word_frequencies
    (f : gmap string (gmap string Z) -> gmap string (gmap string Z)) (e : SearchEngine) :=
  mkSearchEngine (pages e) (page_titles e) (inverted_index e) (trie e)
    (occurrence_lists e) (f (word_frequencies e)) (stop_words e) (stats e).
Definition set_stats (f : Stats -> Stats) (e : SearchEngine) :=
  mkSearchEngine (pages e) (page_titles e) (inverted_index e) (trie e)
    (occurrence_lists e) (word_frequencies e) (stop_words e) (f (stats e)).

(** [word not in self.stop_words and len(word) > 1] *)
Definition indexable (self : SearchEngine) (word : string) : bool :=
  negb (bool_decide (word ∈ stop_words self)) && (1 <? String.length word)%nat.

Definition tokenize (self : SearchEngine) (text : string) : list string :=
  let text := Str.lower text in
  let text := Str.translate_delete Str.punctuation text in
  List.filter (indexable self) (Str.split text).

(** One round of the loop that updates the inverted index:
    [self.inverted_index[word].append(url)] on a [defaultdict(list)]. *)
Definition index_word (url : string) (self : SearchEngine) (word : string) : SearchEngine :=
  if indexable self word then
    let self :=
      set_inverted_index
        (fun ix => <[word := default [] (ix !! word) ++ [url]]> ix) self in
    set_stats (fun s => mkStats (total_pages s) (total_words s + 1) (unique_words s)) self
  else self.

Definition process_page (self : SearchEngine) (url : string) (content : Soup) : SearchEngine :=
  let title :=
    match find_title content with
    | Some text => Str.strip text
    | None => Str.last_segment url
    end in
  let self := set_page_titles <[url := title]> self in
  let text := get_text content in
  let words := tokenize self text in
  let word_counts := Counter words in
  let self := set_word_frequencies <[url := word_counts]> self in
  fold_left (index_word url) (elements (list_to_set words : gset string)) self.

(** One round of the loop of [build_index]. *)
Definition build_entry (self : SearchEngine) (entry : Z * string) : SearchEngine :=
  let '(i, word) := entry in
  let occurrence_list := sorted String.ltb (default [] (inverted_index self !! word)) in
  let self := set_occurrence_lists (fun ls => ls ++ [occurrence_list]) self in
  set_trie (fun t => Trie.insert t word i) self.

Definition build_index (self : SearchEngine) : SearchEngine :=
  let sorted_words := sorted String.ltb (elements (dom (inverted_index self))) in
  fold_left build_entry (enumerate sorted_words) self.

(** [crawl_directory], from the listing on: [directory] is the list of the
    [.html] files found, each with its url and its parsed content. *)
Definition crawl_page (self : SearchEngine) (file : string * Soup) : SearchEngine :=
  let '(url, content) := file in
  let self := set_pages <[url := content]> self in
  let self := process_page self url content in
  set_stats (fun s => mkStats (total_pages s + 1) (total_words s) (unique_words s)) self.

Definition crawl_directory (self : SearchEngine) (directory : list (string * Soup)) : SearchEngine :=
  let self := fold_left crawl_page directory self in
  let self := build_index self in
  set_stats
    (fun s => mkStats (total_pages s) (total_words s)
                      (Z.of_nat (length (occurrence_lists self)))) self.

(** [[term for term in self.tokenize(query) if term not in self.stop_words]] *)
Definition query_terms (self : SearchEngine) (query : string) : list string :=
  List.filter (fun term => negb (bool_decide (term ∈ stop_words self)))
              (tokenize self query).

(** How the loop over the terms of a query with several terms ends. *)
Inductive lookup_loop : Type :=
  | Returned (result : list string)
  | Completed (result_lists : list (list string))
  | Raised.

Fixpoint lookup_terms (self : SearchEngine) (terms : list string)
    (result_lists : list (list string)) : lookup_loop :=
  match terms with
  | [] => Completed result_lists
  | word :: terms' =>
      let list_index := Trie.search (trie self) word in
      if list_index =? -1 then Returned []
      else
        match py_index (occurrence_lists self) list_index with
        | None => Raised
        | Some l => lookup_terms self terms' (result_lists ++ [l])
        end
  end.

(** [intersection = set(result_lists[0])], then [&=] with each other list. *)
Definition intersect_all (result_lists : list (list string)) : option (gset string) :=
  match result_lists with
  | [] => None
  | first :: rest =>
      Some (fold_left (fun acc result_list => acc ∩ list_to_set result_list)
                      rest (list_to_set first))
  end.

Definition search (self : SearchEngine) (query : string) : option (list string) :=
  let query_terms := query_terms self query in
  match query_terms with
  | [] => Some []
  | [word] =>
      let list_index := Trie.search (trie self) word in
      if list_index =? -1 then Some []
      else py_index (occurrence_lists self) list_index
  | _ =>
      match lookup_terms self query_terms [] with
      | Returned result => Some result
      | Raised => None
      | Completed result_lists =>
          intersection ← intersect_all result_lists;
          Some (elements intersection)
      end
  end.

(** The inner loop of [rank_results]: the score of one page. *)
Definition term_score (self : SearchEngine) (url : string)
    (page_word_counts : gmap string Z) (score : Z) (term : string) : Z :=
  let term_freq := default 0 (page_word_counts !! term) in
  let score := score + term_freq in
  match page_titles self !! url with
  | Some title => if Str.contains (Str.lower title) term then score + 2 else score
  | None => score
  end.

Definition page_score (self : SearchEngine) (query_terms : list string) (url : string)
    : option Z :=
  page_word_counts ← word_frequencies self !! url;
  Some (fold_left (term_score self url page_word_counts) query_terms 0).

(** The outer loop of [rank_results]: the [scores] dictionary. *)
Fixpoint score_pages (self : SearchEngine) (query_terms : list string)
    (results : list string) (scores : list (string * Z)) : option (list (string * Z)) :=
  match results with
  | [] => Some scores
  | url :: results' =>
      score ← page_score self query_terms url;
      score_pages self query_terms results' (dict_set scores url score)
  end.

Definition rank_results (self : SearchEngine) (query : string) (results : list string)
    : option (list string) :=
  let query_terms := query_terms self query in
  scores ← score_pages self query_terms results [];
  Some (sorted (fun x y => snd y <? snd x) scores).*1.

(** [query]: search, then rank what was found. *)
Definition query (self : SearchEngine) (query_string : string) : option (list string) :=
  results ← search self query_string;
  match results with
  | [] => Some []
  | _ => rank_results self query_string results
  end.

(** [str(n)] on an integer, as an f-string prints it. *)
Definition str_of_Z (n : Z) : string := NilZero.string_of_int (Z.to_int n).

(** [display_results] prints; the model returns the lines printed and
    whether the call ended without an error ([false]: the subscript
    [self.word_frequencies[url]] raised [KeyError], after the lines
    printed so far). *)
Definition display_term (page_frequencies : gmap string Z) (out : list string)
    (term : string) : list string :=
  match page_frequencies !! term with
  | Some frequency =>
      out ++ ["   '" +:+ term +:+ "' appears " +:+ str_of_Z frequency +:+ " times"]
  | None => out
  end.

Fixpoint display_pages (self : SearchEngine) (query : string)
    (numbered : list (Z * string)) (out : list string) : list string * bool :=
  match numbered with
  | [] => (out, true)
  | (i, url) :: numbered' =>
      let title := default (Str.last_segment url) (page_titles self !! url) in
      let out := out ++ [str_of_Z i +:+ ". " +:+ title] in
      match word_frequencies self !! url with
      | None => (out, false)
      | Some page_frequencies =>
          let query_terms := query_terms self query in
          let out := fold_left (display_term page_frequencies) query_terms out in
          display_pages self query numbered' (out ++ [""])
      end
  end.

Definition display_results (self : SearchEngine) (query : string)
    (results : list string) : list string * bool :=
  match results with
  | [] => (["No results found."], true)
  | _ =>
      display_pages self query (enumerate_from 1 results)
        ["Found " +:+ str_of_Z (Z.of_nat (length results)) +:+ " results:"]
  end.

(** ** Vocabulary of the statements *)

(** Every character of a string passes the test [p]. *)
Fixpoint all_chars (p : ascii -> bool) (s : string) : bool :=
  match s with
  | EmptyString => true
  | String c s' => p c && all_chars p s'
  end.

Definition is_lower (c : ascii) : bool := Ascii.eqb (Str.lower_char c) c.
Definition not_punct (c : ascii) : bool := negb (Str.mem_char c Str.punctuation).
Definition not_space (c : ascii) : bool := negb (Str.isspace c).

(** A trie built by a sequence of [insert(term, index)] calls. *)
Definition insert_all (self : Trie.t) (entries : list (string * Z)) : Trie.t :=
  fold_left (fun t entry => Trie.insert t entry.1 entry.2) entries self.

(** The tokens of a page, and the urls of the pages of a directory whose
    text has the token [word], in the order of the directory. *)
Definition page_tokens (self : SearchEngine) (content : Soup) : list string :=
  tokenize self (get_text content).

Definition pages_with (self : SearchEngine) (directory : list (string * Soup))
    (word : string) : list string :=
  (filter (fun file => word ∈ page_tokens self file.2) directory).*1.

(** The engine after the pages were read, before [build_index]. *)
Definition crawled (directory : list (string * Soup)) : SearchEngine :=
  fold_left crawl_page directory SearchEngine_new.

(** The engine built from a directory. *)
Definition built (directory : list (string * Soup)) : SearchEngine :=
  crawl_directory SearchEngine_new directory.

(** The postings list of a word as [search] reads it: the empty list when
    the trie does not know the word, the list at the word's index
    otherwise ([None] when that subscript is out of range). *)
Definition lookup_postings (self : SearchEngine) (word : string) : option (list string) :=
  let list_index := Trie.search (trie self) word in
  if list_index =? -1 then Some []
  else py_index (occurrence_lists self) list_index.

(** Every word has a postings list to read: no subscript of the query
    engine is out of range. *)
Definition index_ok (self : SearchEngine) : Prop :=
  forall word, is_Some (lookup_postings self word).

(** The stored frequency of a term for a page (0 when the page's counter
    has no entry for the term), and the bonus of a term that occurs in the
    page's title when case is ignored. *)
Definition term_frequency (self : SearchEngine) (url term : string) : Z :=
  default 0 (default ∅ (word_frequencies self !! url) !! term).

Definition title_bonus (self : SearchEngine) (url term : string) : Z :=
  match page_titles self !! url with
  | Some title => if Str.contains (Str.lower title) (Str.lower term) then 2 else 0
  | None => 0
  end.

(** The sum, over a list of terms, of frequency and title bonus: every
    occurrence of a term in the list counts. *)
Definition score_sum (self : SearchEngine) (terms : list string) (url : string) : Z :=
  foldr (fun term acc => term_frequency self url term + title_bonus self url term + acc)
        0 terms.

(** The score as the specification words it: the sum over the distinct
    terms of the query. *)
Definition distinct_terms_score (self : SearchEngine) (query url : string) : Z :=
  score_sum self (remove_dups (query_terms self query)) url.

(** ** A small collection *)

Definition cats_page : string * Soup :=
  ("file://pages/cats.html",
   mkSoup (Some " Cats and Dogs ") "The cat sat on the mat with a dog.").

Definition dogs_page : string * Soup :=
  ("file://pages/dogs.html",
   mkSoup (Some "Dog Training") "Dogs are great: a dog, my dog and your dog!").

Definition birds_page : string * Soup :=
  ("file://pages/birds.html", mkSoup None "No cat likes birds").

Definition example_directory : list (string * Soup) :=
  [dogs_page; cats_page; birds_page].

Definition example_engine : SearchEngine := built example_directory.

Definition example_candidates : list string :=
  ["file://pages/cats.html"; "file://pages/dogs.html"].

Definition example_entries : list (string * Z) :=
  [("dog", 0); ("dogs", 1); ("cat", 2)].

(** Goals on concrete data, settled by evaluation. *)
Ltac compute_NoDup := apply (bool_decide_unpack _); vm_compute; exact I.

Ltac compute_elem :=
  apply list_elem_of_In; vm_compute; repeat first [left; reflexivity | right].

Ltac compute_known :=
  let url := fresh "url" in
  let Hin := fresh "Hin" in
  intros url Hin; apply list_elem_of_In in Hin; vm_compute in Hin;
  destruct Hin as [<-|[<-|[]]]; vm_compute; eauto.

(** The words of the inverted index in the order in which [build_index]
    numbers them ([sorted_words]), and the set of the tokens of all pages. *)
Definition vocabulary (directory : list (string * Soup)) : list string :=
  sorted String.ltb (elements (dom (inverted_index (crawled directory)))).

Definition all_tokens (directory : list (string * Soup)) : gset string :=
  ⋃ ((fun file => list_to_set (page_tokens SearchEngine_new file.2)) <$> directory).

(** * Properties *)

(** ** Sanity checks of the string functions *)

Example lower_ex : Str.lower "Don't STOP, Dogs!" = "don't stop, dogs!".
Proof. reflexivity. Qed.

Example split_ex : Str.split "  the cat   sat " = ["the"; "cat"; "sat"].
Proof. reflexivity. Qed.

Example strip_ex : Str.strip "  Cats and Dogs " = "Cats and Dogs".
Proof. reflexivity. Qed.

Example last_segment_ex : Str.last_segment "file://pages/a.html" = "a.html".
Proof. reflexivity. Qed.


(** ** Tokenizer *)

Lemma string_app_cons c s1 s2 : String c s1 +:+ s2 = String c (s1 +:+ s2).
Proof. reflexivity. Qed.

Lemma string_app_nil_l s : "" +:+ s = s.
Proof. reflexivity. Qed.

Lemma string_app_nil_r s : s +:+ "" = s.
Proof.
  induction s as [|c s IH]; [done|]. by rewrite string_app_cons, IH.
Qed.

Lemma string_app_assoc s1 s2 s3 : (s1 +:+ s2) +:+ s3 = s1 +:+ s2 +:+ s3.
Proof.
  induction s1 as [|c s1 IH]; [done|]. by rewrite !string_app_cons, IH.
Qed.

Section Chars.

Variable p : ascii -> bool.

Lemma all_chars_app s1 s2 :
  all_chars p (s1 +:+ s2) = all_chars p s1 && all_chars p s2.
Proof.
  induction s1 as [|c s1 IH]; [done|].
  rewrite string_app_cons. simpl. by rewrite IH, andb_assoc.
Qed.

Lemma all_chars_concat sep ws :
  all_chars p sep = true ->
  Forall (fun w => all_chars p w = true) ws ->
  all_chars p (String.concat sep ws) = true.
Proof.
  intros Hsep Hws. induction Hws as [|w ws Hw Hws IH]; simpl; [done|].
  destruct ws as [|w' ws']; [done|].
  rewrite !all_chars_app, Hw, Hsep. exact IH.
Qed.

Lemma all_chars_translate_delete chars s :
  all_chars p s = true -> all_chars p (Str.translate_delete chars s) = true.
Proof.
  induction s as [|c s IH]; simpl; [done|].
  intros [Hc Hs]%andb_true_iff.
  destruct (Str.mem_char c chars); simpl; [auto|].
  rewrite Hc. auto.
Qed.

Lemma all_chars_split_from cur s :
  all_chars p cur = true -> all_chars p s = true ->
  Forall (fun w => all_chars p w = true) (Str.split_from cur s).
Proof.
  revert cur. induction s as [|c s IH]; simpl; intros cur Hcur Hs.
  - destruct (String.eqb cur ""); repeat constructor; done.
  - apply andb_true_iff in Hs as [Hc Hs].
    destruct (Str.isspace c).
    + destruct (String.eqb cur ""); [|constructor; [done|]]; by apply IH.
    + apply IH; [|done]. rewrite all_chars_app, Hcur. simpl. by rewrite Hc.
Qed.

End Chars.

Lemma lower_char_idem c : Str.lower_char (Str.lower_char c) = Str.lower_char c.
Proof. by destruct c as [[] [] [] [] [] [] [] []]. Qed.

Lemma all_lower_lower s : all_chars is_lower (Str.lower s) = true.
Proof.
  induction s as [|c s IH]; simpl; [done|].
  rewrite IH, andb_true_r. unfold is_lower.
  rewrite lower_char_idem. apply Ascii.eqb_refl.
Qed.

Lemma lower_fixed s : all_chars is_lower s = true -> Str.lower s = s.
Proof.
  induction s as [|c s IH]; simpl; [done|].
  intros [Hc Hs]%andb_true_iff.
  apply Ascii.eqb_eq in Hc. by rewrite Hc, IH.
Qed.

Lemma translate_delete_clean s :
  all_chars not_punct (Str.translate_delete Str.punctuation s) = true.
Proof.
  induction s as [|c s IH]; cbn [Str.translate_delete all_chars]; [done|].
  destruct (Str.mem_char c Str.punctuation) eqn:Hc;
    cbn [Str.translate_delete all_chars]; [done|].
  unfold not_punct at 1. by rewrite Hc.
Qed.

Lemma translate_delete_fixed s :
  all_chars not_punct s = true -> Str.translate_delete Str.punctuation s = s.
Proof.
  induction s as [|c s IH]; cbn [Str.translate_delete all_chars]; [done|].
  intros [Hc Hs]%andb_true_iff. unfold not_punct in Hc.
  apply negb_true_iff in Hc. by rewrite Hc, IH.
Qed.

(** Reading a run of characters without white space only extends the
    current word. *)
Lemma split_from_word cur w rest :
  all_chars not_space w = true ->
  Str.split_from cur (w +:+ rest) = Str.split_from (cur +:+ w) rest.
Proof.
  revert cur. induction w as [|c w IH]; simpl; intros cur Hw.
  - by rewrite string_app_nil_r.
  - apply andb_true_iff in Hw as [Hc Hw]. unfold not_space in Hc.
    apply negb_true_iff in Hc. rewrite Hc, IH by done.
    by rewrite string_app_assoc.
Qed.

(** Each word that [split] returns is non-empty and free of white space. *)
Lemma split_from_words cur s :
  all_chars not_space cur = true ->
  Forall (fun w => w <> "" /\ all_chars not_space w = true) (Str.split_from cur s).
Proof.
  revert cur. induction s as [|c s IH]; simpl; intros cur Hcur.
  - destruct (String.eqb_spec cur ""); repeat constructor; done.
  - destruct (Str.isspace c) eqn:Hc.
    + destruct (String.eqb_spec cur ""); [|constructor; [done|]]; by apply IH.
    + apply IH. rewrite all_chars_app, Hcur. simpl. unfold not_space. by rewrite Hc.
Qed.

Lemma split_from_space cur s :
  cur <> "" -> Str.split_from cur (String " " s) = cur :: Str.split_from "" s.
Proof. intros Hne. simpl. by destruct (String.eqb_spec cur ""). Qed.

(** [split] undoes [join] on words that [split] could have produced. *)
Lemma split_join ws :
  Forall (fun w => w <> "" /\ all_chars not_space w = true) ws ->
  Str.split (Str.join " " ws) = ws.
Proof.
  unfold Str.split, Str.join.
  induction 1 as [|w ws [Hne Hw] Hws IH]; simpl; [done|].
  destruct ws as [|w' ws'].
  - rewrite <- (string_app_nil_r w) at 1. rewrite split_from_word by done.
    rewrite string_app_nil_l. simpl. by destruct (String.eqb_spec w "").
  - rewrite split_from_word by done. rewrite string_app_nil_l.
    rewrite string_app_cons, string_app_nil_l.
    rewrite split_from_space by done. by rewrite IH.
Qed.

Lemma filter_fixed {A} (f : A -> bool) l :
  Forall (fun x => f x = true) l -> List.filter f l = l.
Proof. induction 1 as [|x l Hx _ IH]; simpl; [done|]. by rewrite Hx, IH. Qed.

Lemma Forall_filter_pass {A} (f : A -> bool) l :
  Forall (fun x => f x = true) (List.filter f l).
Proof.
  apply Forall_forall. intros x Hx%list_elem_of_In.
  by apply filter_In in Hx as [_ ?].
Qed.

Lemma Forall_filter_keep {A} (P : A -> Prop) (f : A -> bool) l :
  Forall P l -> Forall P (List.filter f l).
Proof.
  rewrite !Forall_forall. intros H x Hx.
  apply list_elem_of_In, filter_In in Hx as [Hx _]. by apply H, list_elem_of_In.
Qed.

(** C8. Joining the tokens of [tokenize x] with single spaces and
    tokenizing again gives [tokenize x] back, for every input string and
    every set of stop words. *)
Theorem tokenize_idempotent (self : SearchEngine) (x : string) :
  tokenize self (Str.join " " (tokenize self x)) = tokenize self x.
Proof.
  unfold tokenize at 1.
  set (toks := tokenize self x).
  assert (Hlow : Forall (fun w => all_chars is_lower w = true) toks).
  { apply Forall_filter_keep, all_chars_split_from; [done|].
    apply all_chars_translate_delete, all_lower_lower. }
  assert (Hpun : Forall (fun w => all_chars not_punct w = true) toks).
  { apply Forall_filter_keep, all_chars_split_from; [done|].
    apply translate_delete_clean. }
  assert (Hwd : Forall (fun w => w <> "" /\ all_chars not_space w = true) toks).
  { by apply Forall_filter_keep, split_from_words. }
  assert (Hok : Forall (fun w => indexable self w = true) toks).
  { apply Forall_filter_pass. }
  unfold Str.join at 1.
  rewrite lower_fixed by (by apply all_chars_concat).
  rewrite translate_delete_fixed by (by apply all_chars_concat).
  fold (Str.join " " toks). rewrite split_join by done.
  by apply filter_fixed.
Qed.

(** ** Term dictionary *)

Lemma search_node_new word : Trie.search_node TrieNode_new word = -1.
Proof. destruct word; simpl; [done|]. by rewrite lookup_empty. Qed.

Lemma search_new word : Trie.search Trie.new word = -1.
Proof. apply search_node_new. Qed.

Lemma search_insert_node_same node word idx :
  Trie.search_node (Trie.insert_node node word idx) word = idx.
Proof.
  revert node. induction word as [|c word IH]; intros node; simpl; [done|].
  by rewrite lookup_insert_eq.
Qed.

Lemma search_insert_node_other node word idx word' :
  word' <> word ->
  Trie.search_node (Trie.insert_node node word idx) word' =
  Trie.search_node node word'.
Proof.
  revert node word'.
  induction word as [|c word IH]; intros node [|c' word'] Hne; simpl; try done.
  destruct (decide (c = c')) as [->|Hc].
  - rewrite lookup_insert_eq, IH by congruence.
    destruct (children node !! c'); simpl; [done|]. apply search_node_new.
  - by rewrite lookup_insert_ne.
Qed.

Lemma search_insert_all_other self entries word :
  word ∉ entries.*1 ->
  Trie.search (insert_all self entries) word = Trie.search self word.
Proof.
  revert self. induction entries as [|[w i] entries IH]; intros self Hw; [done|].
  simpl in *. apply not_elem_of_cons in Hw as [Hne Hw].
  unfold insert_all in *. simpl. rewrite IH by done.
  by apply search_insert_node_other.
Qed.

Lemma search_insert_all_same self entries word idx :
  NoDup entries.*1 -> (word, idx) ∈ entries ->
  Trie.search (insert_all self entries) word = idx.
Proof.
  revert self. induction entries as [|[w i] entries IH]; intros self Hnd Hin.
  - by apply elem_of_nil in Hin.
  - simpl in Hnd. apply NoDup_cons in Hnd as [Hw Hnd].
    apply elem_of_cons in Hin as [[= -> ->]|Hin].
    + change (insert_all self ((w, i) :: entries))
        with (insert_all (Trie.insert self w i) entries).
      rewrite search_insert_all_other by done.
      apply search_insert_node_same.
    + by apply IH.
Qed.

(** C4. In a trie built from the empty trie by [insert] calls with
    pairwise distinct terms, [search] returns for an inserted term the
    index it was inserted with, and [-1] (NOT_FOUND) for every other
    string, whether its path breaks off or ends on an unmarked node. *)
Theorem trie_search_insert_all (entries : list (string * Z)) (word : string) :
  NoDup entries.*1 ->
  (forall idx, (word, idx) ∈ entries ->
     Trie.search (insert_all Trie.new entries) word = idx) /\
  (word ∉ entries.*1 ->
     Trie.search (insert_all Trie.new entries) word = -1).
Proof.
  intros Hnd. split.
  - intros idx Hin. by apply search_insert_all_same.
  - intros Hw. rewrite search_insert_all_other by done. apply search_node_new.
Qed.

(** ** Index builder: reading the pages *)

Lemma indexable_ext e e' word :
  stop_words e' = stop_words e -> indexable e' word = indexable e word.
Proof. unfold indexable. by intros ->. Qed.

Lemma tokenize_ext e e' text :
  stop_words e' = stop_words e -> tokenize e' text = tokenize e text.
Proof.
  intros Hs. unfold tokenize. apply filter_ext. intros w.
  by apply indexable_ext.
Qed.

Lemma tokenize_indexable e text :
  Forall (fun w => indexable e w = true) (tokenize e text).
Proof. apply Forall_filter_pass. Qed.

(** The fields that the loop of [process_page] leaves alone. *)
Lemma fold_index_word_frame url ws e :
  let e' := fold_left (index_word url) ws e in
  stop_words e' = stop_words e /\ trie e' = trie e /\
  occurrence_lists e' = occurrence_lists e /\
  word_frequencies e' = word_frequencies e /\
  page_titles e' = page_titles e.
Proof.
  revert e. induction ws as [|w ws IH]; intros e; simpl; [done|].
  destruct (IH (index_word url e w)) as (-> & -> & -> & -> & ->).
  unfold index_word. by destruct (indexable e w).
Qed.

Lemma fold_index_word_index url ws e word :
  NoDup ws -> Forall (fun w => indexable e w = true) ws ->
  inverted_index (fold_left (index_word url) ws e) !! word =
  if bool_decide (word ∈ ws)
  then Some (default [] (inverted_index e !! word) ++ [url])
  else inverted_index e !! word.
Proof.
  revert e. induction ws as [|w ws IH]; intros e Hnd Hok; simpl; [done|].
  apply NoDup_cons in Hnd as [Hw Hnd].
  apply Forall_cons in Hok as [Hiw Hok].
  rewrite IH; [|done|]; last first.
  { eapply Forall_impl; [exact Hok|]. intros x Hx. simpl in Hx.
    rewrite <- Hx. apply indexable_ext.
    unfold index_word. by destruct (indexable e w). }
  unfold index_word. rewrite Hiw. simpl.
  destruct (decide (word = w)) as [->|Hne].
  - rewrite (bool_decide_eq_false_2 _ Hw), lookup_insert_eq.
    by rewrite bool_decide_eq_true_2 by left.
  - rewrite lookup_insert_ne by done.
    by rewrite (bool_decide_ext (word ∈ w :: ws) (word ∈ ws))
      by (rewrite elem_of_cons; split; [intros [?|?]|right]; done).
Qed.

Lemma crawl_page_frame e file :
  let e' := crawl_page e file in
  stop_words e' = stop_words e /\ trie e' = trie e /\
  occurrence_lists e' = occurrence_lists e.
Proof.
  destruct file as [url content]. unfold crawl_page, process_page. simpl.
  match goal with |- context [fold_left _ ?ws ?e0] =>
    destruct (fold_index_word_frame url ws e0) as (-> & -> & -> & _) end.
  done.
Qed.

Lemma crawl_page_word_frequencies e url content :
  word_frequencies (crawl_page e (url, content)) =
  <[url := Counter (page_tokens e content)]> (word_frequencies e).
Proof.
  unfold crawl_page, process_page. simpl.
  match goal with |- context [fold_left _ ?ws ?e0] =>
    destruct (fold_index_word_frame url ws e0) as (_ & _ & _ & -> & _) end.
  reflexivity.
Qed.

Lemma crawl_page_page_titles e url content :
  exists title,
    page_titles (crawl_page e (url, content)) = <[url := title]> (page_titles e).
Proof.
  unfold crawl_page, process_page. simpl.
  match goal with |- context [fold_left _ ?ws ?e0] =>
    destruct (fold_index_word_frame url ws e0) as (_ & _ & _ & _ & ->) end.
  simpl. eauto.
Qed.

Lemma crawl_page_inverted_index e url content word :
  inverted_index (crawl_page e (url, content)) !! word =
  if bool_decide (word ∈ page_tokens e content)
  then Some (default [] (inverted_index e !! word) ++ [url])
  else inverted_index e !! word.
Proof.
  unfold crawl_page, process_page. simpl.
  rewrite fold_index_word_index.
  - simpl. unfold page_tokens.
    match goal with |- context [tokenize ?e0 _] =>
      rewrite (tokenize_ext e e0) by done end.
    apply (f_equal (fun b : bool => if b then _ else _)).
    apply bool_decide_ext. rewrite elem_of_elements. set_solver.
  - apply NoDup_elements.
  - apply Forall_forall. intros w Hw.
    apply elem_of_elements, elem_of_list_to_set in Hw.
    match goal with |- indexable ?e0 _ = _ =>
      pose proof (tokenize_indexable e0 (get_text content)) as Hok end.
    rewrite Forall_forall in Hok. by apply Hok.
Qed.

Lemma pages_with_ext e e' directory word :
  stop_words e' = stop_words e ->
  pages_with e' directory word = pages_with e directory word.
Proof.
  intros Hs. unfold pages_with. f_equal.
  apply list_filter_iff. intros [url content]. unfold page_tokens. simpl.
  by rewrite (tokenize_ext e e').
Qed.

Lemma pages_with_cons e url content directory word :
  pages_with e ((url, content) :: directory) word =
  if bool_decide (word ∈ page_tokens e content)
  then url :: pages_with e directory word
  else pages_with e directory word.
Proof.
  unfold pages_with. rewrite filter_cons. simpl.
  destruct (decide (word ∈ page_tokens e content)) as [Hin|Hin].
  - by rewrite bool_decide_eq_true_2.
  - by rewrite bool_decide_eq_false_2.
Qed.

Lemma elem_of_pages_with e directory word url :
  url ∈ pages_with e directory word <->
  exists content, (url, content) ∈ directory /\ word ∈ page_tokens e content.
Proof.
  unfold pages_with. rewrite list_elem_of_fmap. split.
  - intros ([u c] & -> & [Hw Hin]%list_elem_of_filter). eauto.
  - intros (c & Hin & Hw). exists (url, c). split; [done|].
    by apply list_elem_of_filter.
Qed.

Lemma crawled_frame directory e :
  let e' := fold_left crawl_page directory e in
  stop_words e' = stop_words e /\ trie e' = trie e /\
  occurrence_lists e' = occurrence_lists e.
Proof.
  revert e. induction directory as [|file directory IH]; intros e; simpl; [done|].
  destruct (IH (crawl_page e file)) as (-> & -> & ->).
  apply crawl_page_frame.
Qed.

(** After the pages were read, the entry of a word in the inverted index
    has grown by the urls of the pages that have the word, in the order of
    the directory. *)
Lemma crawled_inverted_index directory e word :
  inverted_index (fold_left crawl_page directory e) !! word =
  match pages_with e directory word with
  | [] => inverted_index e !! word
  | urls => Some (default [] (inverted_index e !! word) ++ urls)
  end.
Proof.
  revert e. induction directory as [|[url content] directory IH]; intros e.
  { done. }
  cbn [fold_left]. rewrite IH, pages_with_cons.
  rewrite (pages_with_ext e (crawl_page e (url, content)))
    by apply crawl_page_frame.
  rewrite crawl_page_inverted_index.
  destruct (bool_decide (word ∈ page_tokens e content)); [|done].
  simpl. destruct (pages_with e directory word) as [|u us]; [done|].
  by rewrite <- app_assoc.
Qed.

Lemma crawled_word_frequencies_other directory e url :
  url ∉ directory.*1 ->
  word_frequencies (fold_left crawl_page directory e) !! url =
  word_frequencies e !! url.
Proof.
  revert e. induction directory as [|[u c] directory IH]; intros e Hu; [done|].
  cbn [fold_left]. rewrite fmap_cons in Hu. cbn [fst] in Hu.
  apply not_elem_of_cons in Hu as [Hne Hu].
  rewrite IH by done. rewrite crawl_page_word_frequencies.
  by rewrite lookup_insert_ne.
Qed.

Lemma crawled_word_frequencies directory e url content :
  NoDup directory.*1 -> (url, content) ∈ directory ->
  word_frequencies (fold_left crawl_page directory e) !! url =
  Some (Counter (page_tokens e content)).
Proof.
  revert e. induction directory as [|[u c] directory IH]; intros e Hnd Hin.
  { by apply elem_of_nil in Hin. }
  cbn [fold_left]. rewrite fmap_cons in Hnd. cbn [fst] in Hnd.
  apply NoDup_cons in Hnd as [Hu Hnd].
  apply elem_of_cons in Hin as [[= -> ->]|Hin].
  - rewrite crawled_word_frequencies_other by done.
    by rewrite crawl_page_word_frequencies, lookup_insert_eq.
  - rewrite (IH _ Hnd Hin). unfold page_tokens.
    by rewrite (tokenize_ext e) by apply crawl_page_frame.
Qed.

Lemma crawled_known directory e url :
  url ∈ directory.*1 ->
  is_Some (word_frequencies (fold_left crawl_page directory e) !! url) /\
  is_Some (page_titles (fold_left crawl_page directory e) !! url).
Proof.
  assert (Hkeep : forall directory e,
    (is_Some (word_frequencies e !! url) -> 
     is_Some (word_frequencies (fold_left crawl_page directory e) !! url)) /\
    (is_Some (page_titles e !! url) -> 
     is_Some (page_titles (fold_left crawl_page directory e) !! url))).
  { clear. induction directory as [|[u c] directory IH]; intros e; [done|].
    cbn [fold_left]. destruct (IH (crawl_page e (u, c))) as [IH1 IH2].
    destruct (crawl_page_page_titles e u c) as [title Ht].
    split; intros Hs.
    - apply IH1. rewrite crawl_page_word_frequencies.
      rewrite lookup_insert. by case_decide.
    - apply IH2. rewrite Ht, lookup_insert. by case_decide. }
  revert e. induction directory as [|[u c] directory IH]; intros e Hin.
  { by apply elem_of_nil in Hin. }
  cbn [fold_left]. rewrite fmap_cons in Hin. cbn [fst] in Hin.
  apply elem_of_cons in Hin as [->|Hin]; [|by apply IH].
  destruct (crawl_page_page_titles e u c) as [title Ht].
  destruct (Hkeep directory (crawl_page e (u, c))) as [H1 H2].
  split.
  - apply H1. by rewrite crawl_page_word_frequencies, lookup_insert_eq.
  - apply H2. by rewrite Ht, lookup_insert_eq.
Qed.

(** ** Sorting *)

Section SortedFacts.
Context {A : Type} (lt : A -> A -> bool).

Lemma insert_sorted_perm x l : insert_sorted lt x l ≡ₚ x :: l.
Proof.
  induction l as [|y l IH]; simpl; [done|].
  destruct (lt y x); [|done].
  rewrite IH. apply Permutation_swap.
Qed.

Lemma sorted_perm l : sorted lt l ≡ₚ l.
Proof.
  induction l as [|x l IH]; simpl; [done|].
  by rewrite insert_sorted_perm, IH.
Qed.

Lemma elem_of_sorted x l : x ∈ sorted lt l <-> x ∈ l.
Proof. by rewrite sorted_perm. Qed.

Lemma NoDup_sorted l : NoDup l -> NoDup (sorted lt l).
Proof. by rewrite sorted_perm. Qed.

(** [R] is an order that [lt] decides: the result of [sorted] is
    ordered by [R]. *)
Context (R : relation A) `{!Transitive R}.
Hypothesis lt_false : forall x y, lt y x = false -> R x y.
Hypothesis lt_true : forall x y, lt y x = true -> R y x.

Lemma insert_sorted_StronglySorted x l :
  StronglySorted R l -> StronglySorted R (insert_sorted lt x l).
Proof.
  induction 1 as [|y l Hl IH Hy]; simpl.
  { repeat constructor. }
  destruct (lt y x) eqn:Hlt.
  - constructor; [done|].
    rewrite insert_sorted_perm. constructor; [by apply lt_true|done].
  - apply lt_false in Hlt. constructor; [by constructor|].
    constructor; [done|].
    eapply Forall_impl; [exact Hy|]. intros z Hz. by transitivity y.
Qed.

Lemma sorted_StronglySorted l : StronglySorted R (sorted lt l).
Proof.
  induction l as [|x l IH]; simpl; [constructor|].
  by apply insert_sorted_StronglySorted.
Qed.
End SortedFacts.

Lemma string_ltb_false x y : String.ltb y x = false -> String.le x y.
Proof.
  unfold String.le, String.leb, String.ltb.
  rewrite (String.compare_antisym y x).
  by destruct (String.compare x y).
Qed.

Lemma string_ltb_true x y : String.ltb y x = true -> String.le y x.
Proof.
  unfold String.le, String.leb, String.ltb.
  by destruct (String.compare y x).
Qed.

Lemma sorted_strings_StronglySorted l :
  StronglySorted String.le (sorted String.ltb l).
Proof.
  apply sorted_StronglySorted;
    [apply _ | apply string_ltb_false | apply string_ltb_true].
Qed.

(** ** Index builder: [build_index] *)

Lemma enumerate_from_lookup {A} (i : Z) (l : list A) (n : nat) (x : A) :
  l !! n = Some x -> (i + Z.of_nat n, x) ∈ enumerate_from i l.
Proof.
  revert i n. induction l as [|y l IH]; intros i [|n] Hn; try done.
  - injection Hn as ->. rewrite Z.add_0_r. by left.
  - cbn [enumerate_from]. apply elem_of_cons. right.
    replace (i + Z.of_nat (S n)) with ((i + 1) + Z.of_nat n) by lia.
    by apply IH.
Qed.

Lemma enumerate_from_snd {A} (i : Z) (l : list A) : (enumerate_from i l).*2 = l.
Proof.
  revert i. induction l as [|y l IH]; intros i; simpl; [done|]. by rewrite IH.
Qed.

(** The loop of [build_index] appends one sorted list for each word and
    inserts the word with its number; it reads the inverted index and
    does not change it. *)
Lemma fold_build_entry entries e :
  let e' := fold_left build_entry entries e in
  inverted_index e' = inverted_index e /\
  word_frequencies e' = word_frequencies e /\
  page_titles e' = page_titles e /\
  stop_words e' = stop_words e /\
  occurrence_lists e' =
    occurrence_lists e ++
    ((fun w => sorted String.ltb (default [] (inverted_index e !! w))) <$> entries.*2) /\
  trie e' = insert_all (trie e) ((fun entry => (entry.2, entry.1)) <$> entries).
Proof.
  revert e. induction entries as [|[i w] entries IH]; intros e.
  { simpl. by rewrite app_nil_r. }
  cbn [fold_left].
  destruct (IH (build_entry e (i, w))) as (-> & -> & -> & -> & -> & ->).
  simpl. by rewrite <- app_assoc.
Qed.

Lemma py_index_nat {A} (l : list A) (n : nat) : py_index l (Z.of_nat n) = l !! n.
Proof.
  unfold py_index. rewrite (proj2 (Z.leb_le _ _)) by lia. by rewrite Nat2Z.id.
Qed.

(** After [build_index] on an engine whose trie and postings table are
    still empty, looking a word up gives the sorted entry that the
    inverted index has for it, and the empty list for an unknown word. *)
Lemma build_index_lookup_postings e word :
  trie e = Trie.new -> occurrence_lists e = [] ->
  lookup_postings (build_index e) word =
  Some (sorted String.ltb (default [] (inverted_index e !! word))).
Proof.
  intros Ht Ho. unfold lookup_postings, build_index.
  set (ws := sorted String.ltb (elements (dom (inverted_index e)))).
  destruct (fold_build_entry (enumerate ws) e) as (_ & _ & _ & _ & -> & ->).
  rewrite Ht, Ho, app_nil_l. unfold enumerate. rewrite enumerate_from_snd.
  set (entries := _ <$> enumerate_from 0 ws).
  assert (Hfst : entries.*1 = ws).
  { unfold entries. rewrite <- list_fmap_compose.
    rewrite <- (enumerate_from_snd 0 ws) at 2. by apply list_fmap_ext. }
  assert (Hnd : NoDup entries.*1).
  { rewrite Hfst. apply NoDup_sorted, NoDup_elements. }
  destruct (decide (word ∈ ws)) as [Hin|Hin].
  - apply list_elem_of_lookup in Hin as [n Hn].
    assert (Hent : (word, Z.of_nat n) ∈ entries).
    { unfold entries. apply list_elem_of_fmap. exists (Z.of_nat n, word).
      split; [done|]. by apply (enumerate_from_lookup 0). }
    rewrite (search_insert_all_same _ _ _ _ Hnd Hent).
    rewrite (proj2 (Z.eqb_neq _ _)) by lia.
    rewrite py_index_nat, list_lookup_fmap, Hn. done.
  - rewrite search_insert_all_other by (by rewrite Hfst).
    rewrite search_new. simpl.
    unfold ws in Hin. rewrite elem_of_sorted, elem_of_elements, elem_of_dom in Hin.
    apply eq_None_not_Some in Hin. by rewrite Hin.
Qed.

Lemma build_index_frame e :
  word_frequencies (build_index e) = word_frequencies e /\
  page_titles (build_index e) = page_titles e /\
  stop_words (build_index e) = stop_words e.
Proof.
  unfold build_index.
  match goal with |- context [fold_left _ ?es _] =>
    destruct (fold_build_entry es e) as (_ & -> & -> & -> & _) end.
  done.
Qed.

(** ** The built engine *)

Lemma crawled_new_inverted_index directory word :
  default [] (inverted_index (crawled directory) !! word) =
  pages_with SearchEngine_new directory word.
Proof.
  unfold crawled. rewrite crawled_inverted_index.
  by destruct (pages_with SearchEngine_new directory word).
Qed.

Lemma built_lookup_postings directory word :
  lookup_postings (built directory) word =
  Some (sorted String.ltb (pages_with SearchEngine_new directory word)).
Proof.
  unfold built, crawl_directory. fold (crawled directory).
  unfold lookup_postings. cbn [trie occurrence_lists set_stats].
  fold (lookup_postings (build_index (crawled directory)) word).
  rewrite build_index_lookup_postings.
  - by rewrite crawled_new_inverted_index.
  - apply (crawled_frame directory SearchEngine_new).
  - apply (crawled_frame directory SearchEngine_new).
Qed.

Lemma built_stop_words directory :
  stop_words (built directory) = load_stop_words.
Proof.
  unfold built, crawl_directory. cbn [stop_words set_stats].
  destruct (build_index_frame (fold_left crawl_page directory SearchEngine_new))
    as (_ & _ & ->).
  apply (crawled_frame directory SearchEngine_new).
Qed.

Lemma built_known directory url :
  url ∈ directory.*1 ->
  is_Some (word_frequencies (built directory) !! url) /\
  is_Some (page_titles (built directory) !! url).
Proof.
  unfold built, crawl_directory. cbn [word_frequencies page_titles set_stats].
  destruct (build_index_frame (fold_left crawl_page directory SearchEngine_new))
    as (-> & -> & _).
  apply crawled_known.
Qed.

Lemma built_word_frequencies directory url content :
  NoDup directory.*1 -> (url, content) ∈ directory ->
  word_frequencies (built directory) !! url =
  Some (Counter (page_tokens SearchEngine_new content)).
Proof.
  unfold built, crawl_directory. cbn [word_frequencies set_stats].
  destruct (build_index_frame (fold_left crawl_page directory SearchEngine_new))
    as (-> & _ & _).
  apply crawled_word_frequencies.
Qed.

Lemma built_word_frequencies_other directory url :
  url ∉ directory.*1 -> word_frequencies (built directory) !! url = None.
Proof.
  intros Hu. unfold built, crawl_directory. cbn [word_frequencies set_stats].
  destruct (build_index_frame (fold_left crawl_page directory SearchEngine_new))
    as (-> & _ & _).
  by rewrite crawled_word_frequencies_other.
Qed.

Lemma built_occurrence_lists directory l :
  l ∈ occurrence_lists (built directory) ->
  exists word, l = sorted String.ltb (pages_with SearchEngine_new directory word).
Proof.
  unfold built, crawl_directory. cbn [occurrence_lists set_stats].
  fold (crawled directory). unfold build_index.
  match goal with |- context [fold_left _ ?es _] =>
    destruct (fold_build_entry es (crawled directory)) as (_ & _ & _ & _ & -> & _)
  end.
  destruct (crawled_frame directory SearchEngine_new) as (_ & _ & Ho).
  fold (crawled directory) in Ho. rewrite Ho, app_nil_l.
  intros (word & -> & _)%list_elem_of_fmap.
  exists word. by rewrite crawled_new_inverted_index.
Qed.

Lemma NoDup_pages_with e directory word :
  NoDup directory.*1 -> NoDup (pages_with e directory word).
Proof.
  intros Hnd. eapply sublist_NoDup; [exact Hnd|].
  unfold pages_with. apply fmap_sublist, sublist_filter.
Qed.

(** ** Counters *)

Lemma Counter_fold words (m : gmap string Z) word :
  default 0 (fold_left (fun m w => <[w := default 0 (m !! w) + 1]> m) words m !! word) =
  default 0 (m !! word) + Z.of_nat (length (filter (fun w => w = word) words)).
Proof.
  revert m. induction words as [|w words IH]; intros m.
  { simpl. lia. }
  cbn [fold_left]. rewrite IH, filter_cons.
  destruct (decide (w = word)) as [->|Hne].
  - rewrite lookup_insert_eq. simpl. lia.
  - by rewrite lookup_insert_ne.
Qed.

Lemma filter_eq_length (words : list string) word :
  (0 < length (filter (fun w => w = word) words))%nat <-> word ∈ words.
Proof.
  induction words as [|w words IH].
  { simpl. split; [lia|]. by intros ?%elem_of_nil. }
  rewrite filter_cons, elem_of_cons.
  destruct (decide (w = word)) as [->|Hne]; simpl.
  - split; [by left|lia].
  - rewrite IH. split; [by right|]. by intros [?|?].
Qed.

Lemma Counter_positive words word :
  1 <= default 0 (Counter words !! word) <-> word ∈ words.
Proof.
  unfold Counter. rewrite Counter_fold, lookup_empty, <- filter_eq_length.
  simpl. lia.
Qed.

(** ** Postings *)

(** C2. In the engine built from a directory of pages with pairwise
    distinct urls, a url is in the postings list of a term (the list at
    the index that the trie gives for the term) exactly when the stored
    frequency of the term for that page is at least 1. *)
Theorem postings_frequency_consistent
    (directory : list (string * Soup)) (term url : string) :
  NoDup directory.*1 ->
  let e := built directory in
  let list_index := Trie.search (trie e) term in
  (list_index <> -1 /\
   exists l, py_index (occurrence_lists e) list_index = Some l /\ url ∈ l)
  <->
  (exists counts,
     word_frequencies e !! url = Some counts /\ 1 <= default 0 (counts !! term)).
Proof.
  intros Hnd e list_index.
  pose proof (built_lookup_postings directory term) as Hp.
  unfold lookup_postings in Hp. fold e in Hp. fold list_index in Hp.
  split.
  - intros (Hidx & l & Hl & Hin).
    apply Z.eqb_neq in Hidx. rewrite Hidx, Hl in Hp. injection Hp as ->.
    apply elem_of_sorted, elem_of_pages_with in Hin as (content & Hd & Hw).
    exists (Counter (page_tokens SearchEngine_new content)). split.
    + by apply built_word_frequencies.
    + by apply Counter_positive.
  - intros (counts & Hc & Hge).
    destruct (decide (url ∈ directory.*1)) as [Hu|Hu]; last first.
    { unfold e in Hc. by rewrite built_word_frequencies_other in Hc. }
    apply list_elem_of_fmap in Hu as ([u content] & -> & Hd).
    cbn [fst] in *. unfold e in Hc. rewrite (built_word_frequencies _ _ _ Hnd Hd) in Hc.
    injection Hc as <-. apply Counter_positive in Hge.
    assert (Hin : u ∈ sorted String.ltb (pages_with SearchEngine_new directory term)).
    { apply elem_of_sorted, elem_of_pages_with. eauto. }
    destruct (Z.eqb_spec list_index (-1)) as [Heq|Hne].
    + injection Hp as Hp. rewrite <- Hp in Hin. by apply elem_of_nil in Hin.
    + split; [done|]. eauto.
Qed.

(** C5. In the engine built from a directory of pages with pairwise
    distinct urls, every list of the postings table is in ascending order
    and has no url twice. *)
Theorem postings_sorted_nodup (directory : list (string * Soup)) (l : list string) :
  NoDup directory.*1 ->
  l ∈ occurrence_lists (built directory) ->
  StronglySorted String.le l /\ NoDup l.
Proof.
  intros Hnd [word ->]%built_occurrence_lists. split.
  - apply sorted_strings_StronglySorted.
  - by apply NoDup_sorted, NoDup_pages_with.
Qed.

(** ** Query engine *)

Lemma built_index_ok directory : index_ok (built directory).
Proof. intros word. rewrite built_lookup_postings. eauto. Qed.

Lemma lookup_postings_found e word :
  Trie.search (trie e) word <> -1 ->
  lookup_postings e word = py_index (occurrence_lists e) (Trie.search (trie e) word).
Proof. intros Hne%Z.eqb_neq. unfold lookup_postings. by rewrite Hne. Qed.

Lemma lookup_postings_missing e word :
  Trie.search (trie e) word = -1 -> lookup_postings e word = Some [].
Proof. intros Heq. unfold lookup_postings. by rewrite Heq. Qed.

(** The loop over the terms returns the empty list at the first term that
    the trie does not know. *)
Lemma lookup_terms_missing e terms result_lists term :
  index_ok e -> term ∈ terms -> Trie.search (trie e) term = -1 ->
  lookup_terms e terms result_lists = Returned [].
Proof.
  intros Hok Hin Hmiss. revert result_lists.
  induction terms as [|w terms IH]; intros result_lists.
  { by apply elem_of_nil in Hin. }
  simpl. destruct (Z.eqb_spec (Trie.search (trie e) w) (-1)) as [|Hne]; [done|].
  apply elem_of_cons in Hin as [->|Hin]; [done|].
  destruct (Hok w) as [l Hl]. rewrite lookup_postings_found in Hl by done.
  rewrite Hl. by apply IH.
Qed.

(** When the trie knows every term, the loop collects their postings
    lists in order. *)
Lemma lookup_terms_found e terms result_lists :
  index_ok e -> Forall (fun w => Trie.search (trie e) w <> -1) terms ->
  lookup_terms e terms result_lists =
  Completed (result_lists ++ ((fun w => default [] (lookup_postings e w)) <$> terms)).
Proof.
  intros Hok Hall. revert result_lists.
  induction Hall as [|w terms Hw Hall IH]; intros result_lists.
  { simpl. by rewrite app_nil_r. }
  simpl. rewrite (proj2 (Z.eqb_neq _ _) Hw).
  destruct (Hok w) as [l Hl]. rewrite Hl.
  rewrite lookup_postings_found in Hl by done. rewrite Hl, IH.
  by rewrite <- app_assoc.
Qed.

Lemma elem_of_fold_intersection (rest : list (list string)) (acc : gset string) url :
  url ∈ fold_left (fun acc result_list => acc ∩ list_to_set result_list) rest acc <->
  url ∈ acc /\ forall l, l ∈ rest -> url ∈ l.
Proof.
  revert acc. induction rest as [|l rest IH]; intros acc; simpl.
  { split; [|by intros [? _]]. intros ?. split; [done|]. by intros l ?%elem_of_nil. }
  rewrite IH, elem_of_intersection, elem_of_list_to_set. split.
  - intros [[Ha Hl] Hrest]. split; [done|].
    intros l' [->|?]%elem_of_cons; auto.
  - intros [Ha Hall]. repeat split; [done| |].
    + apply Hall. by left.
    + intros l' ?. apply Hall. by right.
Qed.

(** What [search] finds on a query with at least one term: the urls that
    are in the postings list of every term. *)
Lemma search_members e query :
  index_ok e -> query_terms e query <> [] ->
  exists results,
    search e query = Some results /\
    forall url, url ∈ results <->
      forall term, term ∈ query_terms e query ->
        url ∈ default [] (lookup_postings e term).
Proof.
  intros Hok Hne. unfold search.
  destruct (query_terms e query) as [|w1 [|w2 terms]] eqn:Hq; [done| |].
  - fold (lookup_postings e w1). destruct (Hok w1) as [l Hl].
    exists l. split; [done|]. intros url. split.
    + intros Hin term ->%list_elem_of_singleton. by rewrite Hl.
    + intros Hall. specialize (Hall w1). rewrite Hl in Hall.
      apply Hall. by left.
  - set (ts := w1 :: w2 :: terms).
    destruct (decide (Forall (fun w => Trie.search (trie e) w <> -1) ts))
      as [Hall|Hmiss].
    + rewrite lookup_terms_found by done. rewrite app_nil_l. simpl.
      eexists. split; [done|]. intros url.
      rewrite elem_of_elements, elem_of_fold_intersection, elem_of_intersection.
      rewrite !elem_of_list_to_set. unfold ts. split.
      * intros [[H1 H2] Hrest] term [->|[->|Hin]%elem_of_cons]%elem_of_cons;
          [done..|].
        apply Hrest. apply list_elem_of_fmap. eauto.
      * intros Hin. repeat split.
        -- apply Hin. by left.
        -- apply Hin. right. by left.
        -- intros l (term & -> & Ht)%list_elem_of_fmap.
           apply Hin. right. by right.
    + apply not_Forall_Exists, Exists_exists in Hmiss as (term & Hin & Hm); [|apply _].
      apply dec_stable in Hm.
      rewrite (lookup_terms_missing e ts [] term) by done.
      exists []. split; [done|]. intros url. split; [by intros ?%elem_of_nil|].
      intros Hall. specialize (Hall term Hin).
      by rewrite lookup_postings_missing in Hall.
Qed.

(** C3. In a built engine, a query one of whose terms the trie does not
    know ([search] of the term gives [-1]) has the empty result, whatever
    its other terms are. *)
Theorem search_missing_term_empty
    (directory : list (string * Soup)) (query term : string) :
  term ∈ query_terms (built directory) query ->
  Trie.search (trie (built directory)) term = -1 ->
  search (built directory) query = Some [].
Proof.
  intros Hin Hmiss. unfold search.
  destruct (query_terms (built directory) query) as [|w1 [|w2 terms]] eqn:Hq.
  - by apply elem_of_nil in Hin.
  - apply list_elem_of_singleton in Hin as ->. by rewrite Hmiss.
  - by rewrite (lookup_terms_missing _ _ [] term) by (done || apply built_index_ok).
Qed.

(** C6. In a built engine, a query that tokenizes to exactly one term has
    as its result the postings list stored at the index that the trie
    gives for the term, and the empty list when the trie gives [-1]. *)
Theorem search_single_term
    (directory : list (string * Soup)) (query word : string) :
  query_terms (built directory) query = [word] ->
  let e := built directory in
  let list_index := Trie.search (trie e) word in
  (list_index = -1 /\ search e query = Some []) \/
  (list_index <> -1 /\
   exists l, py_index (occurrence_lists e) list_index = Some l /\
             search e query = Some l).
Proof.
  intros Hq e list_index. unfold search. subst e. rewrite Hq.
  fold list_index.
  destruct (Z.eqb_spec list_index (-1)) as [Heq|Hne]; [by left|right].
  split; [done|].
  destruct (built_index_ok directory word) as [l Hl].
  rewrite lookup_postings_found in Hl by done. eauto.
Qed.

(** C7. In a built engine, two queries whose terms are the same up to
    order and repetition have results with the same urls. *)
Theorem search_order_insensitive
    (directory : list (string * Soup)) (query1 query2 : string) :
  let e := built directory in
  (forall term, term ∈ query_terms e query1 <-> term ∈ query_terms e query2) ->
  exists results1 results2,
    search e query1 = Some results1 /\
    search e query2 = Some results2 /\
    forall url, url ∈ results1 <-> url ∈ results2.
Proof.
  intros e Hsame.
  destruct (query_terms e query1) as [|t1 ts1] eqn:Hq1.
  - assert (Hq2 : query_terms e query2 = []).
    { destruct (query_terms e query2) as [|t2 ts2]; [done|].
      exfalso. apply (elem_of_nil t2), Hsame. by left. }
    exists [], []. unfold search. by rewrite Hq1, Hq2.
  - assert (Hne1 : query_terms e query1 <> []) by by rewrite Hq1.
    assert (Hne2 : query_terms e query2 <> []).
    { intros Hq2. rewrite Hq2 in Hsame.
      apply (elem_of_nil t1), Hsame. by left. }
    destruct (search_members e query1 (built_index_ok directory) Hne1)
      as (r1 & Hr1 & Hm1).
    destruct (search_members e query2 (built_index_ok directory) Hne2)
      as (r2 & Hr2 & Hm2).
    exists r1, r2. repeat split; [done..| |].
    + intros Hin. apply Hm2. intros term Ht. apply Hm1; [done|].
      rewrite Hq1. by apply Hsame.
    + intros Hin. apply Hm1. intros term Ht. apply Hm2; [done|].
      apply Hsame. by rewrite <- Hq1.
Qed.

(** ** Ranking engine *)

Lemma tokenize_lower e text :
  Forall (fun w => Str.lower w = w) (tokenize e text).
Proof.
  apply Forall_filter_keep.
  eapply Forall_impl; [|intros w; apply lower_fixed].
  apply all_chars_split_from; [done|].
  apply all_chars_translate_delete, all_lower_lower.
Qed.

Lemma query_terms_lower e query :
  Forall (fun w => Str.lower w = w) (query_terms e query).
Proof. apply Forall_filter_keep, tokenize_lower. Qed.

(** The inner loop adds up frequency and bonus over the terms as they
    come, repeated terms included. *)
Lemma fold_term_score e url counts terms score :
  word_frequencies e !! url = Some counts ->
  Forall (fun w => Str.lower w = w) terms ->
  fold_left (term_score e url counts) terms score = score + score_sum e terms url.
Proof.
  intros Hc Hlow. revert score.
  induction Hlow as [|term terms Hterm Hlow IH]; intros score.
  { simpl. lia. }
  cbn [fold_left]. rewrite IH. cbn [score_sum foldr].
  fold (score_sum e terms url).
  unfold term_score, term_frequency, title_bonus. rewrite Hc, Hterm. simpl.
  destruct (page_titles e !! url) as [title|]; [|lia].
  destruct (Str.contains (Str.lower title) term); lia.
Qed.

Lemma page_score_known e terms url :
  is_Some (word_frequencies e !! url) ->
  Forall (fun w => Str.lower w = w) terms ->
  page_score e terms url = Some (score_sum e terms url).
Proof.
  intros [counts Hc] Hlow. unfold page_score. rewrite Hc. simpl.
  by rewrite (fold_term_score _ _ _ _ _ Hc Hlow).
Qed.

Lemma dict_set_fst {V} (d : list (string * V)) k v :
  (dict_set d k v).*1 = if bool_decide (k ∈ d.*1) then d.*1 else d.*1 ++ [k].
Proof.
  induction d as [|[k' v'] d IH]; [done|].
  cbn [dict_set]. destruct (String.eqb_spec k k') as [->|Hne].
  - rewrite bool_decide_eq_true_2; [done|]. by left.
  - rewrite !fmap_cons, IH. cbn [fst].
    rewrite (bool_decide_ext (k ∈ k' :: d.*1) (k ∈ d.*1))
      by (rewrite elem_of_cons; split; [intros [?|?]|right]; done).
    by destruct (bool_decide (k ∈ d.*1)).
Qed.

Lemma elem_of_dict_set {V} (d : list (string * V)) k v u s :
  (u, s) ∈ dict_set d k v -> (u = k /\ s = v) \/ (u, s) ∈ d.
Proof.
  induction d as [|[k' v'] d IH]; cbn [dict_set].
  { intros [=]%list_elem_of_singleton. by left. }
  destruct (String.eqb_spec k k') as [->|Hne].
  - intros [[=]|Hin]%elem_of_cons; [by left|]. right. by right.
  - intros [[= -> ->]|Hin]%elem_of_cons; [right; by left|].
    destruct (IH Hin) as [?|?]; [by left|]. right. by right.
Qed.

(** The outer loop: it gives every candidate whose counter is stored a
    score, namely the sum above, and keeps the candidates in the order in
    which they first come. *)
Lemma score_pages_known e terms results scores0 :
  (forall url, url ∈ results -> is_Some (word_frequencies e !! url)) ->
  Forall (fun w => Str.lower w = w) terms ->
  exists scores,
    score_pages e terms results scores0 = Some scores /\
    (forall u s, (u, s) ∈ scores ->
       (u, s) ∈ scores0 \/ (u ∈ results /\ s = score_sum e terms u)) /\
    (forall u, u ∈ scores.*1 <-> u ∈ scores0.*1 \/ u ∈ results) /\
    (NoDup (scores0.*1 ++ results) -> scores.*1 = scores0.*1 ++ results).
Proof.
  intros Hknown Hlow. revert scores0 Hknown.
  induction results as [|url results IH]; intros scores0 Hknown.
  { exists scores0. simpl. repeat split; try tauto.
    - intros [?|?%elem_of_nil]; done.
    - by rewrite app_nil_r. }
  cbn [score_pages]. rewrite page_score_known; [|apply Hknown; by left|done].
  simpl.
  destruct (IH (dict_set scores0 url (score_sum e terms url)))
    as (scores & Hs & Hval & Hkeys & Hord).
  { intros u ?. apply Hknown. by right. }
  exists scores. split; [done|]. split; [|split].
  - intros u s [Hin|[Hin ->]]%Hval.
    + apply elem_of_dict_set in Hin as [[-> ->]|Hin]; [|by left].
      right. split; [by left|done].
    + right. split; [by right|done].
  - intros u. rewrite Hkeys, dict_set_fst, elem_of_cons.
    destruct (bool_decide_reflect (url ∈ scores0.*1)) as [Hin|Hin].
    + split; [intros [?|?]; auto|].
      intros [?|[->|?]]; auto.
    + rewrite elem_of_app, list_elem_of_singleton. tauto.
  - intros Hnd. rewrite Hord.
    + rewrite dict_set_fst, bool_decide_eq_false_2.
      * by rewrite <- app_assoc.
      * apply NoDup_app in Hnd as (_ & Hdis & _). intros Hin.
        apply (Hdis url Hin). by left.
    + rewrite dict_set_fst, bool_decide_eq_false_2.
      * rewrite <- app_assoc. exact Hnd.
      * apply NoDup_app in Hnd as (_ & Hdis & _). intros Hin.
        apply (Hdis url Hin). by left.
Qed.

Lemma score_pages_Some_known e terms results :
  (forall url, url ∈ results -> is_Some (word_frequencies e !! url)) ->
  Forall (fun w => Str.lower w = w) terms ->
  exists scores,
    score_pages e terms results [] = Some scores /\
    (forall u s, (u, s) ∈ scores -> u ∈ results /\ s = score_sum e terms u) /\
    (forall u, u ∈ scores.*1 <-> u ∈ results) /\
    (NoDup results -> scores.*1 = results).
Proof.
  intros Hknown Hlow.
  destruct (score_pages_known e terms results [] Hknown Hlow)
    as (scores & Hs & Hval & Hkeys & Hord).
  exists scores. split; [done|]. split; [|split].
  - intros u s [Hin|?]%Hval; [|done]. by apply elem_of_nil in Hin.
  - intros u. rewrite Hkeys. split; [|by right].
    intros [Hin|?]; [|done]. by apply elem_of_nil in Hin.
  - intros Hnd. by apply Hord.
Qed.

Lemma remove_dups_NoDup (l : list string) : NoDup l -> remove_dups l = l.
Proof.
  induction 1 as [|x l Hx Hl IH]; [done|].
  cbn [remove_dups]. destruct (decide_rel elem_of x l); [done|]. by rewrite IH.
Qed.

Lemma StronglySorted_scores (f : string -> Z) (scores : list (string * Z)) :
  Forall (fun p => p.2 = f p.1) scores ->
  StronglySorted (fun x y => y.2 <= x.2) scores ->
  StronglySorted (fun u v => f v <= f u) scores.*1.
Proof.
  intros Hval Hsorted.
  induction Hsorted as [|[u s] l Hl IH Hu]; [constructor|].
  apply Forall_cons in Hval as [Hus Hval]. cbn [fst snd] in *. subst s.
  rewrite fmap_cons. constructor; [by apply IH|].
  apply Forall_fmap. rewrite Forall_forall in Hval, Hu |- *.
  intros [v t] Hin. specialize (Hval _ Hin). specialize (Hu _ Hin).
  simpl in *. by subst t.
Qed.

(** C1, as the code has it. For candidates whose counters are stored,
    [rank_results] gives each candidate the sum, over the terms of the
    tokenized query with every repetition counted, of the term's frequency
    in the page plus 2 when the term occurs in the title with case
    ignored; it returns the candidates in descending order of that score.
    When the query repeats no term, this is the sum over the distinct
    terms. *)
Theorem rank_results_scores (self : SearchEngine) (query : string) (results : list string) :
  (forall url, url ∈ results -> is_Some (word_frequencies self !! url)) ->
  let terms := query_terms self query in
  exists scores ranked,
    score_pages self terms results [] = Some scores /\
    rank_results self query results = Some ranked /\
    (forall url, url ∈ results -> (url, score_sum self terms url) ∈ scores) /\
    (forall url s, (url, s) ∈ scores -> url ∈ results /\ s = score_sum self terms url) /\
    StronglySorted (fun u v => score_sum self terms v <= score_sum self terms u) ranked /\
    (forall url, url ∈ ranked <-> url ∈ results) /\
    (NoDup terms ->
     forall url, score_sum self terms url = distinct_terms_score self query url).
Proof.
  intros Hknown terms.
  destruct (score_pages_Some_known self terms results Hknown
              (query_terms_lower self query)) as (scores & Hs & Hval & Hkeys & _).
  exists scores, (sorted (fun x y => snd y <? snd x) scores).*1.
  split; [done|]. split.
  { unfold rank_results. fold terms. by rewrite Hs. }
  split; [|split; [done|split; [|split]]].
  - intros url Hin. apply Hkeys, list_elem_of_fmap in Hin as ([u s] & -> & Hin).
    destruct (Hval _ _ Hin) as [_ ->]. done.
  - apply StronglySorted_scores.
    + apply Forall_forall. intros [u s] Hin%elem_of_sorted.
      by destruct (Hval _ _ Hin) as [_ ->].
    + apply sorted_StronglySorted.
      * intros x y z ? ?. lia.
      * intros x y Hlt%Z.ltb_ge. done.
      * intros x y Hlt%Z.ltb_lt. lia.
  - intros url. by rewrite sorted_perm.
  - intros Hnd url. unfold distinct_terms_score. fold terms.
    by rewrite remove_dups_NoDup.
Qed.

(** C9. Every url that [search] returns on a built engine is the url of
    a page of the directory, its counter and its title are stored, and
    [rank_results] on the result of [search] raises no lookup error. *)
Theorem search_results_known (directory : list (string * Soup)) (query : string) :
  exists results,
    search (built directory) query = Some results /\
    (forall url, url ∈ results ->
       url ∈ directory.*1 /\
       is_Some (word_frequencies (built directory) !! url) /\
       is_Some (page_titles (built directory) !! url)) /\
    is_Some (rank_results (built directory) query results).
Proof.
  set (e := built directory).
  assert (Hres : exists results, search e query = Some results /\
            forall url, url ∈ results -> url ∈ directory.*1).
  { destruct (query_terms e query) as [|t ts] eqn:Hq.
    - exists []. split; [unfold search; by rewrite Hq|].
      by intros url ?%elem_of_nil.
    - destruct (search_members e query (built_index_ok directory))
        as (results & Hs & Hm); [by rewrite Hq|].
      exists results. split; [done|]. intros url Hin.
      assert (Ht : t ∈ query_terms e query) by (rewrite Hq; by left).
      pose proof (proj1 (Hm url) Hin t Ht) as Hp.
      unfold e in Hp. rewrite built_lookup_postings in Hp. simpl in Hp.
      apply elem_of_sorted, elem_of_pages_with in Hp as (content & Hd & _).
      apply list_elem_of_fmap. by exists (url, content). }
  destruct Hres as (results & Hs & Hin). exists results.
  split; [done|]. split.
  - intros url Hu. split; [by apply Hin|]. by apply built_known, Hin.
  - destruct (score_pages_Some_known e (query_terms e query) results)
      as (scores & Hsc & _).
    + intros url Hu. by apply built_known, Hin.
    + apply query_terms_lower.
    + unfold rank_results. rewrite Hsc. simpl. eauto.
Qed.

(** C10. On candidates without duplicates whose counters are stored,
    [rank_results] returns a permutation of the candidates. *)
Theorem rank_results_permutation
    (self : SearchEngine) (query : string) (results : list string) :
  NoDup results ->
  (forall url, url ∈ results -> is_Some (word_frequencies self !! url)) ->
  exists ranked, rank_results self query results = Some ranked /\ ranked ≡ₚ results.
Proof.
  intros Hnd Hknown.
  destruct (score_pages_Some_known self (query_terms self query) results Hknown
              (query_terms_lower self query)) as (scores & Hs & _ & _ & Hord).
  unfold rank_results. rewrite Hs. simpl. eexists. split; [done|].
  by rewrite sorted_perm, Hord.
Qed.

(** ** The statements on the small collection *)

(** A query that repeats a term: the code counts the term twice, the sum
    over the distinct terms counts it once. *)
Lemma rank_score_repeated_term_counterexample :
  (exists results,
     search example_engine "dog dog" = Some results /\
     "file://pages/cats.html" ∈ results) /\
  exists score,
    score_pages example_engine (query_terms example_engine "dog dog")
                ["file://pages/cats.html"] [] =
    Some [("file://pages/cats.html", score)] /\
    score <> distinct_terms_score example_engine "dog dog" "file://pages/cats.html".
Proof.
  split.
  - exists example_candidates. split; [by vm_compute|compute_elem].
  - exists 6. split; [by vm_compute|]. by vm_compute.
Qed.

Lemma rank_results_scores_witness :
  let terms := query_terms example_engine "dog cat" in
  exists scores ranked,
    score_pages example_engine terms example_candidates [] = Some scores /\
    rank_results example_engine "dog cat" example_candidates = Some ranked /\
    (forall url, url ∈ example_candidates ->
       (url, score_sum example_engine terms url) ∈ scores) /\
    (forall url s, (url, s) ∈ scores ->
       url ∈ example_candidates /\ s = score_sum example_engine terms url) /\
    StronglySorted
      (fun u v => score_sum example_engine terms v <= score_sum example_engine terms u)
      ranked /\
    (forall url, url ∈ ranked <-> url ∈ example_candidates) /\
    (NoDup terms ->
     forall url, score_sum example_engine terms url =
                 distinct_terms_score example_engine "dog cat" url).
Proof.
  apply (rank_results_scores example_engine "dog cat" example_candidates).
  compute_known.
Defined.

Lemma postings_frequency_consistent_witness :
  (Trie.search (trie example_engine) "dog" <> -1 /\
   exists l,
     py_index (occurrence_lists example_engine)
              (Trie.search (trie example_engine) "dog") = Some l /\
     "file://pages/cats.html" ∈ l)
  <->
  (exists counts,
     word_frequencies example_engine !! "file://pages/cats.html" = Some counts /\
     1 <= default 0 (counts !! "dog")).
Proof.
  apply (postings_frequency_consistent example_directory "dog" "file://pages/cats.html").
  compute_NoDup.
Defined.

Lemma search_missing_term_empty_witness :
  search example_engine "cat elephant" = Some [].
Proof.
  apply (search_missing_term_empty example_directory "cat elephant" "elephant").
  - compute_elem.
  - by vm_compute.
Defined.

Lemma trie_search_insert_all_witness :
  (forall idx, ("dogs", idx) ∈ example_entries ->
     Trie.search (insert_all Trie.new example_entries) "dogs" = idx) /\
  ("dogs" ∉ example_entries.*1 ->
     Trie.search (insert_all Trie.new example_entries) "dogs" = -1).
Proof.
  apply (trie_search_insert_all example_entries "dogs").
  compute_NoDup.
Defined.

Lemma postings_sorted_nodup_witness :
  StronglySorted String.le example_candidates /\ NoDup example_candidates.
Proof.
  apply (postings_sorted_nodup example_directory example_candidates).
  - compute_NoDup.
  - compute_elem.
Defined.

Lemma search_single_term_witness :
  let list_index := Trie.search (trie example_engine) "dog" in
  (list_index = -1 /\ search example_engine "The DOG!" = Some []) \/
  (list_index <> -1 /\
   exists l, py_index (occurrence_lists example_engine) list_index = Some l /\
             search example_engine "The DOG!" = Some l).
Proof.
  apply (search_single_term example_directory "The DOG!" "dog").
  by vm_compute.
Defined.

Lemma search_order_insensitive_witness :
  exists results1 results2,
    search example_engine "cat dog" = Some results1 /\
    search example_engine "dog cat dog" = Some results2 /\
    forall url, url ∈ results1 <-> url ∈ results2.
Proof.
  apply (search_order_insensitive example_directory "cat dog" "dog cat dog").
  intros term.
  assert (H1 : query_terms (built example_directory) "cat dog" = ["cat"; "dog"])
    by by vm_compute.
  assert (H2 : query_terms (built example_directory) "dog cat dog" = ["dog"; "cat"; "dog"])
    by by vm_compute.
  rewrite H1, H2, !elem_of_cons, !elem_of_nil. tauto.
Defined.

Lemma rank_results_permutation_witness :
  exists ranked,
    rank_results example_engine "dog" example_candidates = Some ranked /\
    ranked ≡ₚ example_candidates.
Proof.
  apply (rank_results_permutation example_engine "dog" example_candidates).
  - compute_NoDup.
  - compute_known.
Defined.


(** * Further properties of the code *)

(** ** Term dictionary *)

(** [insert] followed by [search], on any trie: the inserted word maps to
    the new index (also when it was there before), every other word is
    looked up as before. *)
Theorem trie_insert_search (self : Trie.t) (word : string) (idx : Z) (word' : string) :
  Trie.search (Trie.insert self word idx) word' =
  if decide (word' = word) then idx else Trie.search self word'.
Proof.
  unfold Trie.search, Trie.insert. cbn [Trie.root].
  destruct (decide (word' = word)) as [->|Hne].
  - apply search_insert_node_same.
  - by apply search_insert_node_other.
Qed.

Lemma insert_all_app self entries1 entries2 :
  insert_all self (entries1 ++ entries2) =
  insert_all (insert_all self entries1) entries2.
Proof. unfold insert_all. apply fold_left_app. Qed.

(** When a word is inserted several times, the last insertion decides
    what [search] returns. *)
Theorem trie_last_insert_wins
    (self : Trie.t) (before after : list (string * Z)) (word : string) (idx : Z) :
  word ∉ after.*1 ->
  Trie.search (insert_all self (before ++ (word, idx) :: after)) word = idx.
Proof.
  intros Hafter. rewrite insert_all_app.
  change (insert_all (insert_all self before) ((word, idx) :: after))
    with (insert_all (Trie.insert (insert_all self before) word idx) after).
  rewrite search_insert_all_other by done.
  apply search_insert_node_same.
Qed.

Lemma trie_last_insert_wins_witness :
  Trie.search
    (insert_all Trie.new ([("dog", 0); ("cat", 1)] ++ ("dog", 7) :: [("dogs", 2)]))
    "dog" = 7.
Proof.
  apply (trie_last_insert_wins Trie.new [("dog", 0); ("cat", 1)] [("dogs", 2)] "dog" 7).
  apply (bool_decide_unpack _). vm_compute. exact I.
Defined.

(** ** Tokenizer *)

(** Every token is in lower case, has no punctuation and no white space,
    has at least two characters and is no stop word. *)
Theorem tokens_well_formed (self : SearchEngine) (text word : string) :
  word ∈ tokenize self text ->
  Str.lower word = word /\
  all_chars not_punct word = true /\
  all_chars not_space word = true /\
  (2 <= String.length word)%nat /\
  word ∉ stop_words self.
Proof.
  intros Hin.
  pose proof (tokenize_lower self text) as Hlow.
  assert (Hpun : Forall (fun w => all_chars not_punct w = true) (tokenize self text)).
  { apply Forall_filter_keep, all_chars_split_from; [done|].
    apply translate_delete_clean. }
  assert (Hwd : Forall (fun w => w <> "" /\ all_chars not_space w = true)
                       (tokenize self text)).
  { by apply Forall_filter_keep, split_from_words. }
  pose proof (tokenize_indexable self text) as Hok.
  rewrite Forall_forall in Hlow, Hpun, Hwd, Hok.
  specialize (Hok _ Hin). unfold indexable in Hok.
  apply andb_true_iff in Hok as [Hstop Hlen].
  apply negb_true_iff, bool_decide_eq_false in Hstop.
  apply Nat.ltb_lt in Hlen.
  repeat split; [by apply Hlow|by apply Hpun|by apply Hwd|lia|done].
Qed.

Lemma tokens_well_formed_witness :
  Str.lower "dont" = "dont" /\
  all_chars not_punct "dont" = true /\
  all_chars not_space "dont" = true /\
  (2 <= String.length "dont")%nat /\
  "dont" ∉ stop_words SearchEngine_new.
Proof.
  apply (tokens_well_formed SearchEngine_new "I DON'T like the cat!" "dont").
  compute_elem.
Defined.

Lemma stop_word_filter_fixed self text :
  List.filter (fun term => negb (bool_decide (term ∈ stop_words self)))
              (tokenize self text) = tokenize self text.
Proof.
  apply filter_fixed.
  eapply Forall_impl; [apply tokenize_indexable|].
  intros w Hw. unfold indexable in Hw. by apply andb_true_iff in Hw as [? _].
Qed.

(** The second stop-word filter of [search] and [rank_results] removes
    nothing: the terms of a query are its tokens. *)
Theorem query_terms_tokenize (self : SearchEngine) (query : string) :
  query_terms self query = tokenize self query.
Proof. apply stop_word_filter_fixed. Qed.

Lemma lower_idem s : Str.lower (Str.lower s) = Str.lower s.
Proof. apply lower_fixed, all_lower_lower. Qed.

(** Case does not matter: a text and its lower case have the same tokens,
    so a query and its lower case have the same result. *)
Theorem tokenize_case_insensitive (self : SearchEngine) (text : string) :
  tokenize self (Str.lower text) = tokenize self text /\
  search self (Str.lower text) = search self text.
Proof.
  assert (Ht : tokenize self (Str.lower text) = tokenize self text).
  { unfold tokenize. by rewrite lower_idem. }
  split; [done|]. unfold search, query_terms. by rewrite Ht.
Qed.




Lemma lower_app a b : Str.lower (a +:+ b) = Str.lower a +:+ Str.lower b.
Proof.
  induction a as [|c a IH]; [done|].
  rewrite string_app_cons. cbn [Str.lower]. by rewrite IH, string_app_cons.
Qed.

Lemma translate_delete_app chars a b :
  Str.translate_delete chars (a +:+ b) =
  Str.translate_delete chars a +:+ Str.translate_delete chars b.
Proof.
  induction a as [|c a IH]; [done|].
  rewrite string_app_cons. cbn [Str.translate_delete].
  destruct (Str.mem_char c chars); [done|]. by rewrite IH, string_app_cons.
Qed.

Lemma split_from_app_space cur a b :
  Str.split_from cur (a +:+ String " " b) =
  Str.split_from cur a ++ Str.split_from "" b.
Proof.
  revert cur. induction a as [|c a IH]; intros cur.
  - rewrite string_app_nil_l. cbn [Str.split_from].
    change (Str.isspace " ") with true. cbv iota.
    by destruct (String.eqb cur "").
  - rewrite string_app_cons. cbn [Str.split_from].
    destruct (Str.isspace c); [|apply IH].
    destruct (String.eqb cur ""); [apply IH|].
    by rewrite IH.
Qed.

Lemma tokenize_app_space_eq self a b :
  tokenize self (a +:+ " " +:+ b) = tokenize self a ++ tokenize self b.
Proof.
  unfold tokenize.
  rewrite lower_app, translate_delete_app.
  change (Str.lower (" " +:+ b)) with (String " " (Str.lower b)).
  change (Str.translate_delete Str.punctuation (String " " (Str.lower b)))
    with (String " " (Str.translate_delete Str.punctuation (Str.lower b))).
  unfold Str.split. rewrite split_from_app_space.
  apply List.filter_app.
Qed.

(** The tokens of two texts joined by a space are the tokens of the first
    followed by the tokens of the second. *)
Theorem tokenize_app_space (self : SearchEngine) (a b : string) :
  tokenize self (a +:+ " " +:+ b) = tokenize self a ++ tokenize self b.
Proof. apply tokenize_app_space_eq. Qed.

(** ** Query engine *)

Lemma NoDup_fst_unique {A B} (l : list (A * B)) x y1 y2 :
  NoDup l.*1 -> (x, y1) ∈ l -> (x, y2) ∈ l -> y1 = y2.
Proof.
  induction l as [|[x' y'] l IH]; intros Hnd H1 H2.
  { by apply elem_of_nil in H1. }
  rewrite fmap_cons in Hnd. cbn [fst] in Hnd.
  apply NoDup_cons in Hnd as [Hx Hnd].
  apply elem_of_cons in H1 as [H1|H1];
    apply elem_of_cons in H2 as [H2|H2]; simplify_eq.
  - done.
  - destruct Hx. apply list_elem_of_fmap. by exists (x', y2).
  - destruct Hx. apply list_elem_of_fmap. by exists (x', y1).
  - by apply IH.
Qed.

Lemma built_tokenize directory text :
  tokenize (built directory) text = tokenize SearchEngine_new text.
Proof. apply tokenize_ext, built_stop_words. Qed.

Lemma built_query_terms directory query :
  query_terms (built directory) query = tokenize SearchEngine_new query.
Proof.
  unfold query_terms. rewrite stop_word_filter_fixed.
  apply built_tokenize.
Qed.

Lemma built_search_members directory query :
  tokenize SearchEngine_new query <> [] ->
  exists results,
    search (built directory) query = Some results /\
    forall url, url ∈ results <->
      forall term, term ∈ tokenize SearchEngine_new query ->
        url ∈ pages_with SearchEngine_new directory term.
Proof.
  intros Hne.
  destruct (search_members (built directory) query (built_index_ok directory))
    as (results & Hs & Hm).
  { by rewrite built_query_terms. }
  exists results. split; [done|]. intros url. rewrite Hm, built_query_terms.
  split; intros Hall term Ht; specialize (Hall term Ht).
  - rewrite built_lookup_postings in Hall. cbn [default] in Hall.
    by apply elem_of_sorted in Hall.
  - rewrite built_lookup_postings. cbn [default]. by apply elem_of_sorted.
Qed.

Lemma built_search_no_terms directory query :
  tokenize SearchEngine_new query = [] -> search (built directory) query = Some [].
Proof. intros Hq. unfold search. by rewrite built_query_terms, Hq. Qed.

(** What a query finds, end to end: in the engine built from pages with
    pairwise distinct urls, [search] returns the urls of exactly those
    pages whose text has every token of the query among its tokens, and
    nothing when the query has no token. *)
Theorem search_conjunctive (directory : list (string * Soup)) (query : string) :
  NoDup directory.*1 ->
  exists results,
    search (built directory) query = Some results /\
    forall url, url ∈ results <->
      tokenize SearchEngine_new query <> [] /\
      exists content,
        (url, content) ∈ directory /\
        forall term, term ∈ tokenize SearchEngine_new query ->
          term ∈ tokenize SearchEngine_new (get_text content).
Proof.
  intros Hnd.
  destruct (tokenize SearchEngine_new query) as [|t ts] eqn:Hq.
  { exists []. split; [by apply built_search_no_terms|].
    intros url. split; [by intros ?%elem_of_nil|by intros [? _]]. }
  destruct (built_search_members directory query) as (results & Hs & Hm).
  { by rewrite Hq. }
  rewrite Hq in Hm. exists results. split; [done|].
  intros url. rewrite Hm. split.
  - intros Hall. split; [done|].
    pose proof (Hall t ltac:(by left)) as Ht.
    apply elem_of_pages_with in Ht as (content & Hd & _).
    exists content. split; [done|]. intros term Hterm.
    apply Hall, elem_of_pages_with in Hterm as (content' & Hd' & Hw).
    by rewrite (NoDup_fst_unique _ _ _ _ Hnd Hd Hd').
  - intros (_ & content & Hd & Hall) term Hterm.
    apply elem_of_pages_with. exists content. split; [done|]. by apply Hall.
Qed.

Lemma search_conjunctive_witness :
  exists results,
    search example_engine "cat dog" = Some results /\
    forall url, url ∈ results <->
      tokenize SearchEngine_new "cat dog" <> [] /\
      exists content,
        (url, content) ∈ example_directory /\
        forall term, term ∈ tokenize SearchEngine_new "cat dog" ->
          term ∈ tokenize SearchEngine_new (get_text content).
Proof.
  apply (search_conjunctive example_directory "cat dog").
  compute_NoDup.
Defined.

(** Joining two queries that both have a token intersects their results:
    the result of the joined query holds the urls that both results hold. *)
Theorem search_join_intersects (directory : list (string * Soup)) (a b : string) :
  tokenize SearchEngine_new a <> [] ->
  tokenize SearchEngine_new b <> [] ->
  exists results_a results_b results,
    search (built directory) a = Some results_a /\
    search (built directory) b = Some results_b /\
    search (built directory) (a +:+ " " +:+ b) = Some results /\
    forall url, url ∈ results <-> url ∈ results_a /\ url ∈ results_b.
Proof.
  intros Ha Hb.
  destruct (built_search_members directory a Ha) as (ra & Hsa & Hma).
  destruct (built_search_members directory b Hb) as (rb & Hsb & Hmb).
  destruct (built_search_members directory (a +:+ " " +:+ b)) as (r & Hs & Hm).
  { rewrite tokenize_app_space_eq. by destruct (tokenize SearchEngine_new a). }
  exists ra, rb, r. repeat split; [done..| | |].
  - apply Hma. intros term Ht. apply Hm; [done|].
    rewrite tokenize_app_space_eq. apply elem_of_app. by left.
  - apply Hmb. intros term Ht. apply Hm; [done|].
    rewrite tokenize_app_space_eq. apply elem_of_app. by right.
  - intros [H1 H2]. apply Hm. intros term.
    rewrite tokenize_app_space_eq, elem_of_app. intros [Ht|Ht].
    + by apply Hma.
    + by apply Hmb.
Qed.

Lemma search_join_intersects_witness :
  exists results_a results_b results,
    search example_engine "cat" = Some results_a /\
    search example_engine "my dog!" = Some results_b /\
    search example_engine ("cat" +:+ " " +:+ "my dog!") = Some results /\
    forall url, url ∈ results <-> url ∈ results_a /\ url ∈ results_b.
Proof.
  apply (search_join_intersects example_directory "cat" "my dog!");
    by vm_compute.
Defined.

(** A stop word joined to a query is ignored, so without a token on one
    side the joined query is not an intersection: it has the result of
    the other side. *)
Theorem search_join_no_terms (self : SearchEngine) (a b : string) :
  tokenize self a = [] ->
  search self (a +:+ " " +:+ b) = search self b /\
  search self (b +:+ " " +:+ a) = search self b.
Proof.
  intros Ha. unfold search, query_terms.
  rewrite !tokenize_app_space_eq, Ha, app_nil_l, app_nil_r. done.
Qed.

Lemma search_join_no_terms_witness :
  search example_engine ("the" +:+ " " +:+ "dog") = search example_engine "dog" /\
  search example_engine ("dog" +:+ " " +:+ "the") = search example_engine "dog".
Proof.
  apply (search_join_no_terms example_engine "the" "dog"). by vm_compute.
Defined.

(** ** Dictionary and postings table of a built engine *)

Lemma built_trie_table directory :
  trie (built directory) =
    insert_all Trie.new ((fun entry => (entry.2, entry.1)) <$> enumerate (vocabulary directory)) /\
  occurrence_lists (built directory) =
    (fun w => sorted String.ltb (pages_with SearchEngine_new directory w))
      <$> vocabulary directory.
Proof.
  unfold built, crawl_directory. cbn [trie occurrence_lists set_stats].
  fold (crawled directory). unfold build_index. fold (vocabulary directory).
  destruct (fold_build_entry (enumerate (vocabulary directory)) (crawled directory))
    as (_ & _ & _ & _ & -> & ->).
  destruct (crawled_frame directory SearchEngine_new) as (_ & Ht & Ho).
  fold (crawled directory) in Ht, Ho. rewrite Ht, Ho, app_nil_l.
  split; [done|]. unfold enumerate. rewrite enumerate_from_snd.
  apply list_fmap_ext. intros _ w _. by rewrite crawled_new_inverted_index.
Qed.

Lemma vocabulary_entries_fst (ws : list string) :
  ((fun entry : Z * string => (entry.2, entry.1)) <$> enumerate ws).*1 = ws.
Proof.
  rewrite <- list_fmap_compose. unfold enumerate.
  rewrite <- (enumerate_from_snd 0 ws) at 2. by apply list_fmap_ext.
Qed.

Lemma NoDup_vocabulary directory : NoDup (vocabulary directory).
Proof. apply NoDup_sorted, NoDup_elements. Qed.

Lemma built_search_index directory word n :
  vocabulary directory !! n = Some word ->
  Trie.search (trie (built directory)) word = Z.of_nat n.
Proof.
  intros Hn. destruct (built_trie_table directory) as [-> _].
  apply search_insert_all_same.
  - rewrite vocabulary_entries_fst. apply NoDup_vocabulary.
  - apply list_elem_of_fmap. exists (Z.of_nat n, word).
    split; [done|]. by apply (enumerate_from_lookup 0).
Qed.

Lemma built_search_unknown directory word :
  word ∉ vocabulary directory ->
  Trie.search (trie (built directory)) word = -1.
Proof.
  intros Hw. destruct (built_trie_table directory) as [-> _].
  rewrite search_insert_all_other by (by rewrite vocabulary_entries_fst).
  apply search_new.
Qed.

Lemma elem_of_vocabulary directory word :
  word ∈ vocabulary directory <->
  exists url content,
    (url, content) ∈ directory /\ word ∈ page_tokens SearchEngine_new content.
Proof.
  unfold vocabulary. rewrite elem_of_sorted, elem_of_elements, elem_of_dom.
  unfold crawled. rewrite crawled_inverted_index.
  destruct (pages_with SearchEngine_new directory word) as [|u us] eqn:Hp.
  - cbn [inverted_index SearchEngine_new]. rewrite lookup_empty. split.
    + by intros [? [=]].
    + intros (url & content & Hd & Hw).
      assert (Hin : url ∈ pages_with SearchEngine_new directory word).
      { apply elem_of_pages_with. eauto. }
      rewrite Hp in Hin. by apply elem_of_nil in Hin.
  - split; [|eauto]. intros _.
    assert (Hin : u ∈ pages_with SearchEngine_new directory word).
    { rewrite Hp. by left. }
    apply elem_of_pages_with in Hin as (content & Hd & Hw). eauto.
Qed.

(** The dictionary knows exactly the tokens of the pages: [search] in the
    trie of a built engine finds a word if and only if some page has the
    word among its tokens. *)
Theorem dictionary_words (directory : list (string * Soup)) (word : string) :
  Trie.search (trie (built directory)) word <> -1 <->
  exists url content,
    (url, content) ∈ directory /\
    word ∈ tokenize SearchEngine_new (get_text content).
Proof.
  rewrite <- (elem_of_vocabulary directory word). split.
  - intros Hs. destruct (decide (word ∈ vocabulary directory)); [done|].
    by rewrite built_search_unknown in Hs.
  - intros [n Hn]%list_elem_of_lookup.
    rewrite (built_search_index _ _ _ Hn). lia.
Qed.

(** Stop words and words of fewer than two characters are never in the
    dictionary of a built engine. *)
Theorem dictionary_excludes (directory : list (string * Soup)) (word : string) :
  word ∈ load_stop_words \/ (String.length word < 2)%nat ->
  Trie.search (trie (built directory)) word = -1.
Proof.
  intros Hbad. apply built_search_unknown.
  intros (url & content & _ & Hw)%elem_of_vocabulary.
  pose proof (tokenize_indexable SearchEngine_new (get_text content)) as Hok.
  rewrite Forall_forall in Hok. specialize (Hok _ Hw).
  unfold indexable in Hok. apply andb_true_iff in Hok as [Hstop Hlen].
  apply negb_true_iff, bool_decide_eq_false in Hstop.
  apply Nat.ltb_lt in Hlen. destruct Hbad as [?|?]; [done|lia].
Qed.

Lemma dictionary_excludes_witness :
  Trie.search (trie example_engine) "the" = -1.
Proof.
  apply (dictionary_excludes example_directory "the").
  left. apply (bool_decide_unpack _). by vm_compute.
Defined.

Lemma StronglySorted_lookup_lt {A} (R : relation A) (l : list A) i j x y :
  StronglySorted R l -> l !! i = Some x -> l !! j = Some y -> (i < j)%nat -> R x y.
Proof.
  intros Hs. revert i j. induction Hs as [|z l Hl IH Hz]; intros i j Hi Hj Hlt.
  { done. }
  destruct j as [|j]; [lia|]. cbn in Hj.
  destruct i as [|i].
  - cbn in Hi. injection Hi as ->. rewrite Forall_forall in Hz.
    apply Hz. by eapply list_elem_of_lookup_2.
  - cbn in Hi. apply (IH i j); [done..|lia].
Qed.

(** The index that the trie gives for a word of the dictionary is a valid
    subscript of the postings table, and the indices follow the order of
    the words: a smaller word has a smaller index. *)
Theorem dictionary_indices
    (directory : list (string * Soup)) (word1 word2 : string) :
  let e := built directory in
  let index1 := Trie.search (trie e) word1 in
  let index2 := Trie.search (trie e) word2 in
  index1 <> -1 -> index2 <> -1 ->
  0 <= index1 < Z.of_nat (length (occurrence_lists e)) /\
  (String.ltb word1 word2 = true -> index1 < index2).
Proof.
  intros e index1 index2 H1 H2.
  assert (Hv : forall w, Trie.search (trie e) w <> -1 ->
            exists n, vocabulary directory !! n = Some w /\
                      Trie.search (trie e) w = Z.of_nat n).
  { intros w Hw. destruct (decide (w ∈ vocabulary directory)) as [Hin|Hin].
    - apply list_elem_of_lookup in Hin as [n Hn]. exists n.
      split; [done|]. by apply built_search_index.
    - unfold e in Hw. by rewrite built_search_unknown in Hw. }
  destruct (Hv word1 H1) as (n1 & Hn1 & Hi1).
  destruct (Hv word2 H2) as (n2 & Hn2 & Hi2).
  subst index1 index2. rewrite Hi1, Hi2. split.
  - unfold e. destruct (built_trie_table directory) as [_ ->].
    rewrite length_fmap. apply lookup_lt_Some in Hn1. lia.
  - intros Hlt. destruct (decide (n1 < n2)%nat) as [?|Hge]; [lia|].
    exfalso.
    assert (Hne : n1 <> n2).
    { intros ->. rewrite Hn1 in Hn2. injection Hn2 as ->.
      unfold String.ltb in Hlt.
      assert (Heq : String.compare word2 word2 = Eq).
      { clear. induction word2 as [|c s IH]; [done|]. cbn.
        unfold Ascii.compare. by rewrite N.compare_refl. }
      by rewrite Heq in Hlt. }
    assert (Hle : String.le word2 word1).
    { apply (StronglySorted_lookup_lt String.le (vocabulary directory) n2 n1);
        [apply sorted_strings_StronglySorted|done..|lia]. }
    unfold String.le, String.leb in Hle. unfold String.ltb in Hlt.
    rewrite (String.compare_antisym word2 word1) in Hle.
    destruct (String.compare word1 word2); done.
Qed.

Lemma dictionary_indices_witness :
  let index1 := Trie.search (trie example_engine) "cat" in
  let index2 := Trie.search (trie example_engine) "dogs" in
  0 <= index1 < Z.of_nat (length (occurrence_lists example_engine)) /\
  (String.ltb "cat" "dogs" = true -> index1 < index2).
Proof.
  apply (dictionary_indices example_directory "cat" "dogs"); by vm_compute.
Defined.

(** ** Statistics *)

Lemma fold_index_word_stats url ws e :
  Forall (fun w => indexable e w = true) ws ->
  let e' := fold_left (index_word url) ws e in
  total_pages (stats e') = total_pages (stats e) /\
  total_words (stats e') = total_words (stats e) + Z.of_nat (length ws) /\
  unique_words (stats e') = unique_words (stats e).
Proof.
  revert e. induction ws as [|w ws IH]; intros e Hok.
  { simpl. repeat split; lia. }
  apply Forall_cons in Hok as [Hw Hok]. cbn [fold_left].
  destruct (IH (index_word url e w)) as (-> & -> & ->).
  { eapply Forall_impl; [exact Hok|]. intros x Hx. simpl in Hx.
    rewrite <- Hx. apply indexable_ext.
    unfold index_word. by destruct (indexable e w). }
  unfold index_word. rewrite Hw. cbn. repeat split. lia.
Qed.

Lemma crawl_page_stats e url content :
  let e' := crawl_page e (url, content) in
  total_pages (stats e') = total_pages (stats e) + 1 /\
  total_words (stats e') =
    total_words (stats e) +
    Z.of_nat (size (list_to_set (page_tokens e content) : gset string)) /\
  unique_words (stats e') = unique_words (stats e).
Proof.
  unfold crawl_page, process_page. cbn [stats set_stats total_pages total_words unique_words].
  match goal with |- context [fold_left _ ?ws ?e0] =>
    destruct (fold_index_word_stats url ws e0) as (-> & -> & ->) end.
  - apply Forall_forall. intros w Hw.
    apply elem_of_elements, elem_of_list_to_set in Hw.
    match goal with |- indexable ?e0 _ = _ =>
      pose proof (tokenize_indexable e0 (get_text content)) as Hok end.
    rewrite Forall_forall in Hok. by apply Hok.
  - done.
Qed.

Lemma sum_list_with_pointwise {A} (f g : A -> nat) (l : list A) :
  (forall x, f x = g x) -> sum_list_with f l = sum_list_with g l.
Proof.
  intros Hfg. induction l as [|x l IH]; [done|].
  cbn [sum_list_with]. by rewrite Hfg, IH.
Qed.

Lemma crawled_stats directory e :
  let e' := fold_left crawl_page directory e in
  total_pages (stats e') = total_pages (stats e) + Z.of_nat (length directory) /\
  total_words (stats e') =
    total_words (stats e) +
    Z.of_nat (sum_list_with
                (fun file => size (list_to_set (page_tokens e file.2) : gset string))
                directory) /\
  unique_words (stats e') = unique_words (stats e).
Proof.
  revert e. induction directory as [|[url content] directory IH]; intros e.
  { simpl. repeat split; lia. }
  cbn [fold_left]. destruct (IH (crawl_page e (url, content))) as (-> & -> & ->).
  destruct (crawl_page_stats e url content) as (-> & -> & ->).
  cbn [sum_list_with length snd]. repeat split; [lia|].
  rewrite (sum_list_with_pointwise _
             (fun file => size (list_to_set (page_tokens e file.2) : gset string))).
  - lia.
  - intros [u c]. unfold page_tokens. cbn [snd].
    by rewrite (tokenize_ext e) by apply crawl_page_frame.
Qed.

Lemma fold_build_entry_stats entries e :
  stats (fold_left build_entry entries e) = stats e.
Proof.
  revert e. induction entries as [|[i w] entries IH]; intros e; [done|].
  cbn [fold_left]. by rewrite IH.
Qed.

Lemma all_tokens_dom directory :
  dom (inverted_index (crawled directory)) = all_tokens directory.
Proof.
  apply set_eq. intros word.
  rewrite <- elem_of_elements, <- (elem_of_sorted String.ltb).
  fold (vocabulary directory). rewrite elem_of_vocabulary.
  unfold all_tokens. rewrite elem_of_union_list. split.
  - intros (url & content & Hd & Hw).
    exists (list_to_set (page_tokens SearchEngine_new content)). split.
    + apply list_elem_of_fmap. by exists (url, content).
    + by apply elem_of_list_to_set.
  - intros (X & ([url content] & -> & Hd)%list_elem_of_fmap & Hw).
    apply elem_of_list_to_set in Hw. eauto.
Qed.

(** The statistics of a built engine: [total_pages] is the number of
    pages, [unique_words] is the number of distinct tokens over all pages,
    and [total_words] adds up, page by page, the number of distinct tokens
    of the page (a word that a page repeats counts once for that page). *)
Theorem built_stats (directory : list (string * Soup)) :
  total_pages (stats (built directory)) = Z.of_nat (length directory) /\
  total_words (stats (built directory)) =
    Z.of_nat (sum_list_with
                (fun file =>
                   size (list_to_set (tokenize SearchEngine_new (get_text file.2))
                         : gset string))
                directory) /\
  unique_words (stats (built directory)) = Z.of_nat (size (all_tokens directory)).
Proof.
  unfold built, crawl_directory.
  cbn [stats set_stats total_pages total_words unique_words].
  unfold build_index. rewrite fold_build_entry_stats.
  destruct (crawled_stats directory SearchEngine_new) as (-> & -> & _).
  split; [done|]. split; [done|].
  match goal with |- context [fold_left build_entry ?es ?e0] =>
    destruct (fold_build_entry es e0) as (_ & _ & _ & _ & -> & _) end.
  destruct (crawled_frame directory SearchEngine_new) as (_ & _ & ->).
  cbn [occurrence_lists SearchEngine_new]. rewrite app_nil_l, length_fmap.
  unfold enumerate. rewrite enumerate_from_snd.
  rewrite (Permutation_length (sorted_perm _ _)).
  fold (crawled directory). by rewrite all_tokens_dom.
Qed.

(** ** Results of the query engine *)

Lemma built_search_NoDup directory query :
  NoDup directory.*1 ->
  exists results,
    search (built directory) query = Some results /\ NoDup results.
Proof.
  intros Hnd. unfold search.
  destruct (query_terms (built directory) query) as [|w1 [|w2 terms]].
  - exists []. split; [done|constructor].
  - fold (lookup_postings (built directory) w1).
    rewrite built_lookup_postings. eexists. split; [done|].
    by apply NoDup_sorted, NoDup_pages_with.
  - set (ts := w1 :: w2 :: terms).
    destruct (decide (Forall (fun w => Trie.search (trie (built directory)) w <> -1) ts))
      as [Hall|Hmiss].
    + rewrite lookup_terms_found by (done || apply built_index_ok).
      rewrite app_nil_l. unfold ts. rewrite fmap_cons. cbn [intersect_all].
      simpl. eexists. split; [done|]. apply NoDup_elements.
    + apply not_Forall_Exists, Exists_exists in Hmiss as (term & Hin & Hm); [|apply _].
      apply dec_stable in Hm.
      rewrite (lookup_terms_missing _ ts [] term) by (done || apply built_index_ok).
      exists []. split; [done|constructor].
Qed.

(** In the engine built from pages with pairwise distinct urls, [search]
    returns no url twice. *)
Theorem search_NoDup (directory : list (string * Soup)) (query : string) :
  NoDup directory.*1 ->
  exists results,
    search (built directory) query = Some results /\ NoDup results.
Proof. apply built_search_NoDup. Qed.

Lemma search_NoDup_witness :
  exists results, search example_engine "dog" = Some results /\ NoDup results.
Proof.
  apply (search_NoDup example_directory "dog"). compute_NoDup.
Defined.

(** ** Document store *)

(** The stored frequency of a term for a page is the number of times the
    term occurs among the tokens of the page's text. *)
Theorem stored_frequency_counts
    (directory : list (string * Soup)) (url : string) (content : Soup) (term : string) :
  NoDup directory.*1 -> (url, content) ∈ directory ->
  term_frequency (built directory) url term =
  Z.of_nat (length (filter (fun w => w = term)
                           (tokenize SearchEngine_new (get_text content)))).
Proof.
  intros Hnd Hin. unfold term_frequency.
  rewrite (built_word_frequencies _ _ _ Hnd Hin).
  change (default 0 (Counter (page_tokens SearchEngine_new content) !! term) = 
          Z.of_nat (length (filter (fun w => w = term)
                                   (page_tokens SearchEngine_new content)))).
  unfold Counter. by rewrite Counter_fold, lookup_empty.
Qed.

Lemma stored_frequency_counts_witness :
  term_frequency (built example_directory) dogs_page.1 "dog" =
  Z.of_nat (length (filter (fun w => w = "dog")
                           (tokenize SearchEngine_new (get_text dogs_page.2)))).
Proof.
  apply (stored_frequency_counts example_directory dogs_page.1 dogs_page.2 "dog").
  - compute_NoDup.
  - left.
Defined.

Lemma crawl_page_title e url content :
  page_titles (crawl_page e (url, content)) =
  <[url := match find_title content with
           | Some text => Str.strip text
           | None => Str.last_segment url
           end]> (page_titles e).
Proof.
  unfold crawl_page, process_page. cbn [page_titles set_stats].
  match goal with |- context [fold_left _ ?ws ?e0] =>
    destruct (fold_index_word_frame url ws e0) as (_ & _ & _ & _ & ->) end.
  done.
Qed.

Lemma crawled_page_titles_other directory e url :
  url ∉ directory.*1 ->
  page_titles (fold_left crawl_page directory e) !! url = page_titles e !! url.
Proof.
  revert e. induction directory as [|[u c] directory IH]; intros e Hu; [done|].
  cbn [fold_left]. rewrite fmap_cons in Hu. cbn [fst] in Hu.
  apply not_elem_of_cons in Hu as [Hne Hu].
  rewrite IH by done. rewrite crawl_page_title. by rewrite lookup_insert_ne.
Qed.

(** The stored title of a page is the text of its title tag without the
    white space around it, and the last segment of the url when the page
    has no title tag. *)
Theorem stored_title
    (directory : list (string * Soup)) (url : string) (content : Soup) :
  NoDup directory.*1 -> (url, content) ∈ directory ->
  page_titles (built directory) !! url =
  Some match find_title content with
       | Some text => Str.strip text
       | None => Str.last_segment url
       end.
Proof.
  intros Hnd Hin. unfold built, crawl_directory. cbn [page_titles set_stats].
  destruct (build_index_frame (fold_left crawl_page directory SearchEngine_new))
    as (_ & -> & _).
  generalize SearchEngine_new. induction directory as [|[u c] directory IH]; intros e.
  { by apply elem_of_nil in Hin. }
  cbn [fold_left]. rewrite fmap_cons in Hnd. cbn [fst] in Hnd.
  apply NoDup_cons in Hnd as [Hu Hnd].
  apply elem_of_cons in Hin as [[= -> ->]|Hin].
  - rewrite crawled_page_titles_other by done.
    by rewrite crawl_page_title, lookup_insert_eq.
  - by apply IH.
Qed.

Lemma stored_title_witness :
  page_titles (built example_directory) !! birds_page.1 =
  Some match find_title birds_page.2 with
       | Some text => Str.strip text
       | None => Str.last_segment birds_page.1
       end.
Proof.
  apply (stored_title example_directory birds_page.1 birds_page.2).
  - compute_NoDup.
  - right. right. left.
Defined.

(** ** Results of the ranking engine *)

Lemma score_pages_unknown e terms results scores0 url :
  url ∈ results -> word_frequencies e !! url = None ->
  score_pages e terms results scores0 = None.
Proof.
  intros Hin Hnone. revert scores0.
  induction results as [|u results IH]; intros scores0.
  { by apply elem_of_nil in Hin. }
  cbn [score_pages]. apply elem_of_cons in Hin as [<-|Hin].
  - unfold page_score. by rewrite Hnone.
  - destruct (page_score e terms u); [|done]. simpl. by apply IH.
Qed.

(** [rank_results] fails with a lookup error exactly when some candidate
    has no stored counter. *)
Theorem rank_results_error (self : SearchEngine) (query : string) (results : list string) :
  rank_results self query results = None <->
  exists url, url ∈ results /\ word_frequencies self !! url = None.
Proof.
  split.
  - intros Hnone.
    destruct (decide (Forall (fun u => is_Some (word_frequencies self !! u)) results))
      as [Hall|Hnot].
    + rewrite Forall_forall in Hall.
      destruct (score_pages_Some_known self (query_terms self query) results Hall
                  (query_terms_lower self query)) as (scores & Hs & _).
      unfold rank_results in Hnone. by rewrite Hs in Hnone.
    + apply not_Forall_Exists, Exists_exists in Hnot as (url & Hin & Hu); [|apply _].
      exists url. split; [done|]. by apply eq_None_not_Some.
  - intros (url & Hin & Hu). unfold rank_results.
    by rewrite (score_pages_unknown _ _ _ _ url Hin Hu).
Qed.

Lemma NoDup_dict_set {V} (d : list (string * V)) k v :
  NoDup d.*1 -> NoDup (dict_set d k v).*1.
Proof.
  intros Hnd. rewrite dict_set_fst.
  destruct (bool_decide_reflect (k ∈ d.*1)) as [Hin|Hin]; [done|].
  apply NoDup_app. repeat split; [done| |apply NoDup_singleton].
  by intros x Hx ->%list_elem_of_singleton.
Qed.

Lemma score_pages_NoDup e terms results scores0 scores :
  NoDup scores0.*1 ->
  score_pages e terms results scores0 = Some scores -> NoDup scores.*1.
Proof.
  revert scores0. induction results as [|u results IH]; intros scores0 Hnd Hs.
  { cbn in Hs. by injection Hs as <-. }
  cbn [score_pages] in Hs. destruct (page_score e terms u) as [s|]; [|done].
  simpl in Hs. eapply IH; [|exact Hs]. by apply NoDup_dict_set.
Qed.

(** When a candidate comes several times, [rank_results] still returns
    it once: the ranked list has no duplicate and holds exactly the
    candidates. *)
Theorem rank_results_dedup (self : SearchEngine) (query : string) (results : list string) :
  (forall url, url ∈ results -> is_Some (word_frequencies self !! url)) ->
  exists ranked,
    rank_results self query results = Some ranked /\
    NoDup ranked /\
    forall url, url ∈ ranked <-> url ∈ results.
Proof.
  intros Hknown.
  destruct (score_pages_Some_known self (query_terms self query) results Hknown
              (query_terms_lower self query)) as (scores & Hs & _ & Hkeys & _).
  unfold rank_results. rewrite Hs. simpl. eexists. split; [done|]. split.
  - rewrite sorted_perm. eapply score_pages_NoDup; [|exact Hs]. constructor.
  - intros url. by rewrite sorted_perm.
Qed.

Lemma rank_results_dedup_witness :
  exists ranked,
    rank_results example_engine "dog" (example_candidates ++ example_candidates) =
      Some ranked /\
    NoDup ranked /\
    forall url, url ∈ ranked <-> url ∈ example_candidates ++ example_candidates.
Proof.
  apply (rank_results_dedup example_engine "dog" (example_candidates ++ example_candidates)).
  intros url Hin. apply list_elem_of_In in Hin. vm_compute in Hin.
  destruct Hin as [<-|[<-|[<-|[<-|[]]]]]; vm_compute; eauto.
Defined.

Section Stable.
Context {A : Type} (lt : A -> A -> bool) (P : A -> Prop) `{!forall x, Decision (P x)}.
Hypothesis lt_separates : forall x y, lt y x = true -> P x -> ~ P y.

Lemma filter_insert_sorted x l :
  filter P (insert_sorted lt x l) = filter P (x :: l).
Proof.
  induction l as [|y l IH]; [done|].
  cbn [insert_sorted]. destruct (lt y x) eqn:Hlt; [|done].
  rewrite filter_cons, IH, !filter_cons.
  destruct (decide (P y)) as [Hy|Hy]; [|done].
  destruct (decide (P x)) as [Hx|Hx]; [|done].
  by destruct (lt_separates x y Hlt Hx).
Qed.

Lemma filter_sorted l : filter P (sorted lt l) = filter P l.
Proof.
  induction l as [|x l IH]; [done|].
  cbn [sorted foldr]. fold (sorted lt l).
  by rewrite filter_insert_sorted, !filter_cons, IH.
Qed.
End Stable.

Lemma filter_scores_fst (f : string -> Z) (k : Z) (scores : list (string * Z)) :
  Forall (fun p => p.2 = f p.1) scores ->
  filter (fun u => f u = k) scores.*1 = (filter (fun p => p.2 = k) scores).*1.
Proof.
  induction 1 as [|[u s] l Hus Hl IH]; [done|].
  cbn [fst snd] in Hus. subst s.
  rewrite fmap_cons, !filter_cons. cbn [fst snd].
  destruct (decide (f u = k)); [rewrite fmap_cons|]; by rewrite IH.
Qed.

(** The ranking is stable: candidates with the same score keep, in the
    ranked list, the order they have in the candidate list. *)
Theorem rank_results_stable
    (self : SearchEngine) (query : string) (results : list string) (k : Z) :
  NoDup results ->
  (forall url, url ∈ results -> is_Some (word_frequencies self !! url)) ->
  let score := score_sum self (query_terms self query) in
  exists ranked,
    rank_results self query results = Some ranked /\
    filter (fun url => score url = k) ranked =
    filter (fun url => score url = k) results.
Proof.
  intros Hnd Hknown score.
  destruct (score_pages_Some_known self (query_terms self query) results Hknown
              (query_terms_lower self query)) as (scores & Hs & Hval & _ & Hord).
  unfold rank_results. rewrite Hs. simpl. eexists. split; [done|].
  assert (Hall : Forall (fun p => p.2 = score p.1) scores).
  { apply Forall_forall. intros [u s] Hin. by destruct (Hval _ _ Hin) as [_ ->]. }
  rewrite filter_scores_fst.
  - rewrite (filter_sorted _ (fun p : string * Z => p.2 = k)).
    + by rewrite <- (filter_scores_fst score k scores Hall), Hord.
    + intros x y Hlt%Z.ltb_lt Hx Hy. lia.
  - apply Forall_forall. intros p Hin%elem_of_sorted.
    rewrite Forall_forall in Hall. by apply Hall.
Qed.

Lemma rank_results_stable_witness :
  let score := score_sum example_engine (query_terms example_engine "great mat") in
  exists ranked,
    rank_results example_engine "great mat" example_candidates = Some ranked /\
    filter (fun url => score url = 1) ranked =
    filter (fun url => score url = 1) example_candidates.
Proof.
  apply (rank_results_stable example_engine "great mat" example_candidates 1).
  - compute_NoDup.
  - compute_known.
Defined.

(** ** Search and ranking together *)

Lemma built_search_known directory query results url :
  search (built directory) query = Some results -> url ∈ results ->
  url ∈ directory.*1.
Proof.
  intros Hs Hin.
  destruct (tokenize SearchEngine_new query) as [|t ts] eqn:Hq.
  { rewrite built_search_no_terms in Hs by done. injection Hs as <-.
    by apply elem_of_nil in Hin. }
  destruct (built_search_members directory query) as (results' & Hs' & Hm).
  { by rewrite Hq. }
  rewrite Hs in Hs'. injection Hs' as <-.
  assert (Ht : t ∈ tokenize SearchEngine_new query) by (rewrite Hq; by left).
  pose proof (proj1 (Hm url) Hin t Ht) as Hp.
  apply elem_of_pages_with in Hp as (content & Hd & _).
  apply list_elem_of_fmap. by exists (url, content).
Qed.

Lemma built_query directory query_string :
  NoDup directory.*1 ->
  let e := built directory in
  let score := score_sum e (query_terms e query_string) in
  exists results ranked,
    search e query_string = Some results /\
    query e query_string = Some ranked /\
    ranked ≡ₚ results /\
    StronglySorted (fun u v => score v <= score u) ranked.
Proof.
  intros Hnd e score.
  destruct (built_search_NoDup directory query_string Hnd) as (results & Hs & Hnr).
  fold e in Hs. unfold query. rewrite Hs. cbn [mbind option_bind].
  destruct results as [|r rs].
  { exists [], []. repeat split; [done|constructor]. }
  set (results := r :: rs) in *.
  assert (Hknown : forall url, url ∈ results -> is_Some (word_frequencies e !! url)).
  { intros url Hin. apply built_known. by eapply built_search_known. }
  destruct (score_pages_Some_known e (query_terms e query_string) results Hknown
              (query_terms_lower e query_string)) as (scores & Hsc & Hval & _ & Hord).
  unfold rank_results. rewrite Hsc. cbn [mbind option_bind].
  exists results. eexists. split; [done|]. split; [done|]. split.
  - by rewrite sorted_perm, Hord.
  - apply StronglySorted_scores.
    + apply Forall_forall. intros [u s] Hin%elem_of_sorted.
      by destruct (Hval _ _ Hin) as [_ ->].
    + apply sorted_StronglySorted.
      * intros x y z ? ?. lia.
      * intros x y Hlt%Z.ltb_ge. done.
      * intros x y Hlt%Z.ltb_lt. lia.
Qed.

(** [query] on an engine built from pages with pairwise distinct urls
    raises no error and returns the urls that [search] finds, each once,
    in descending order of score. *)
Theorem query_ranks_search (directory : list (string * Soup)) (query_string : string) :
  NoDup directory.*1 ->
  let e := built directory in
  let score := score_sum e (query_terms e query_string) in
  exists results ranked,
    search e query_string = Some results /\
    query e query_string = Some ranked /\
    ranked ≡ₚ results /\
    StronglySorted (fun u v => score v <= score u) ranked.
Proof. apply built_query. Qed.

Lemma query_ranks_search_witness :
  let score := score_sum example_engine (query_terms example_engine "a Dog?") in
  exists results ranked,
    search example_engine "a Dog?" = Some results /\
    query example_engine "a Dog?" = Some ranked /\
    ranked ≡ₚ results /\
    StronglySorted (fun u v => score v <= score u) ranked.
Proof.
  apply (query_ranks_search example_directory "a Dog?"). compute_NoDup.
Defined.

Lemma title_bonus_nonneg e url term : 0 <= title_bonus e url term.
Proof.
  unfold title_bonus. destruct (page_titles e !! url) as [title|]; [|done].
  by destruct (Str.contains (Str.lower title) (Str.lower term)).
Qed.

Lemma score_sum_lower_bound e terms url :
  (forall term, term ∈ terms -> 1 <= term_frequency e url term) ->
  Z.of_nat (length terms) <= score_sum e terms url.
Proof.
  induction terms as [|t terms IH]; intros Hall; [done|].
  cbn [score_sum foldr length]. fold (score_sum e terms url).
  pose proof (Hall t ltac:(by left)) as Ht.
  pose proof (title_bonus_nonneg e url t) as Hb.
  assert (Hrest : Z.of_nat (length terms) <= score_sum e terms url).
  { apply IH. intros term ?. apply Hall. by right. }
  lia.
Qed.

(** Every page that [search] finds holds every term of the query, so its
    score is at least the number of terms of the query. *)
Theorem search_result_score
    (directory : list (string * Soup)) (query : string)
    (results : list string) (url : string) :
  NoDup directory.*1 ->
  search (built directory) query = Some results -> url ∈ results ->
  let terms := query_terms (built directory) query in
  Z.of_nat (length terms) <= score_sum (built directory) terms url.
Proof.
  intros Hnd Hs Hin terms. apply score_sum_lower_bound.
  intros term Ht. unfold terms in Ht. rewrite built_query_terms in Ht.
  destruct (built_search_members directory query) as (results' & Hs' & Hm).
  { intros Hq. rewrite Hq in Ht. by apply elem_of_nil in Ht. }
  rewrite Hs in Hs'. injection Hs' as <-.
  pose proof (proj1 (Hm url) Hin term Ht) as Hp.
  apply elem_of_pages_with in Hp as (content & Hd & Hw).
  unfold term_frequency. rewrite (built_word_frequencies _ _ _ Hnd Hd).
  by apply Counter_positive.
Qed.

Lemma search_result_score_witness :
  let terms := query_terms (built example_directory) "cat dog" in
  Z.of_nat (length terms) <= score_sum (built example_directory) terms cats_page.1.
Proof.
  apply (search_result_score example_directory "cat dog" [cats_page.1] cats_page.1).
  - compute_NoDup.
  - by vm_compute.
  - left.
Defined.

(** ** Display *)



Lemma display_pages_status e query numbered out :
  (display_pages e query numbered out).2 = true <->
  forall url, url ∈ numbered.*2 -> is_Some (word_frequencies e !! url).
Proof.
  revert out. induction numbered as [|[i url] numbered IH]; intros out.
  { simpl. split; [|done]. by intros _ url ?%elem_of_nil. }
  cbn [display_pages]. rewrite fmap_cons. cbn [snd].
  destruct (word_frequencies e !! url) as [counts|] eqn:Hc.
  - rewrite IH. split.
    + intros Hall u [->|Hu]%elem_of_cons; [by rewrite Hc|by apply Hall].
    + intros Hall u Hu. apply Hall. by right.
  - cbn [snd]. split; [done|]. intros Hall.
    destruct (Hall url ltac:(by left)) as [? Hs]. by rewrite Hc in Hs.
Qed.

(** [display_results] ends without a lookup error exactly when every
    result has a stored counter; before the error it has printed the
    lines of the results that come first. *)
Theorem display_results_status
    (self : SearchEngine) (query : string) (results : list string) :
  (display_results self query results).2 = true <->
  forall url, url ∈ results -> is_Some (word_frequencies self !! url).
Proof.
  unfold display_results. destruct results as [|r rs].
  { simpl. split; [|done]. by intros _ url ?%elem_of_nil. }
  rewrite display_pages_status. by rewrite enumerate_from_snd.
Qed.


